(** * Block processor, prefetcher and mempool of the wallet server

    A shallow embedding of [lbry/wallet/server/block_processor.py] and
    [lbry/wallet/server/mempool.py].  Python integers are [Z], byte strings
    are [string], dictionaries whose iteration order matters are insertion
    ordered association lists, the others are [gmap]s, sets are [gset]s.
    Code that raises returns a [result]. *)

From stdpp Require Import gmap strings list fin_maps.
From Stdlib Require Import ZArith Lia Ascii.

Open Scope Z_scope.

(** ** Python outcomes *)

Inductive exn :=
  | ZeroDivisionError
  | TypeError
  | KeyError
  | IndexError
  | ValueError
  | AttributeError
  | AssertionError
  | ChainError
  | Corrupt
  | InvariantViolated.

Inductive result (A : Type) :=
  | Ret (a : A)
  | Raise (e : exn).
Arguments Ret {A} a.
Arguments Raise {A} e.

#[global] Instance result_bind : MBind result := λ A B k r,
  match r with
  | Ret a => k a
  | Raise e => Raise e
  end.

#[global] Instance result_ret : MRet result := λ A a, Ret a.

Definition of_option {A} (e : exn) (o : option A) : result A :=
  match o with
  | Some a => Ret a
  | None => Raise e
  end.

(** A loop whose body may raise. *)
Fixpoint for_each {A B} (f : A → B → result A) (a : A) (l : list B) : result A :=
  match l with
  | [] => Ret a
  | b :: l => a ← f a b; for_each f a l
  end.

Lemma for_each_Ret_inv {A B} (f : A → B → result A) (P : A → Prop) l :
  ∀ a a',
    (∀ a b a', P a → f a b = Ret a' → P a') →
    P a → for_each f a l = Ret a' → P a'.
Proof.
  induction l as [|b l IH]; intros a a' Hstep Ha; simpl.
  - by intros [= <-].
  - destruct (f a b) as [a1|e] eqn:Hf; simpl; [|done].
    apply IH; [done|]. by eapply Hstep.
Qed.

Lemma for_each_total {A B} (f : A → B → result A) l :
  (∀ a b, ∃ a', f a b = Ret a') → ∀ a, ∃ a', for_each f a l = Ret a'.
Proof.
  intros Hf. induction l as [|b l IH]; intros a; simpl; [eauto|].
  destruct (Hf a b) as [a1 ->]. simpl. apply IH.
Qed.

(** ** Insertion ordered dictionaries

    A Python [dict] keeps its keys in insertion order; assigning to a key
    that is present keeps the key's place. *)

Section Dict.
Context {K V : Type} `{EqDecision K}.

Fixpoint dict_get (d : list (K * V)) (k : K) : option V :=
  match d with
  | [] => None
  | (k', v) :: d' => if decide (k' = k) then Some v else dict_get d' k
  end.

Fixpoint dict_set (d : list (K * V)) (k : K) (v : V) : list (K * V) :=
  match d with
  | [] => [(k, v)]
  | (k', v') :: d' =>
      if decide (k' = k) then (k, v) :: d' else (k', v') :: dict_set d' k v
  end.

Definition dict_mem (d : list (K * V)) (k : K) : bool :=
  if dict_get d k is Some _ then true else false.

Definition dict_keys (d : list (K * V)) : list K := d.*1.

Lemma dict_get_set_eq d k v : dict_get (dict_set d k v) k = Some v.
Proof.
  induction d as [|[k' v'] d IH]; simpl.
  - by rewrite decide_True.
  - destruct (decide (k' = k)) as [->|Hne]; simpl.
    + by rewrite decide_True.
    + by rewrite decide_False.
Qed.

Lemma dict_get_set_ne d k k' v :
  k ≠ k' → dict_get (dict_set d k v) k' = dict_get d k'.
Proof.
  intros Hne. induction d as [|[k0 v0] d IH]; simpl.
  - by rewrite decide_False.
  - destruct (decide (k0 = k)) as [->|Hne0]; simpl.
    + by rewrite !decide_False.
    + destruct (decide (k0 = k')); done.
Qed.

Lemma dict_get_Some_elem d k v : dict_get d k = Some v → (k, v) ∈ d.
Proof.
  induction d as [|[k' v'] d IH]; simpl; [done|].
  destruct (decide (k' = k)) as [->|Hne].
  - intros [= ->]. left.
  - intros H. right. auto.
Qed.

Lemma dict_keys_set_present d k v :
  k ∈ dict_keys d → dict_keys (dict_set d k v) = dict_keys d.
Proof.
  unfold dict_keys. induction d as [|[k' v'] d IH]; simpl.
  - intros H. by apply elem_of_nil in H.
  - intros H. destruct (decide (k' = k)) as [->|Hne]; simpl; [done|].
    f_equal. apply IH. apply elem_of_cons in H as [H|H]; [congruence|done].
Qed.

Lemma dict_keys_set_absent d k v :
  k ∉ dict_keys d → dict_keys (dict_set d k v) = dict_keys d ++ [k].
Proof.
  unfold dict_keys. induction d as [|[k' v'] d IH]; simpl; [done|].
  intros H. apply not_elem_of_cons in H as [H1 H2].
  rewrite decide_False by done. simpl. f_equal. by apply IH.
Qed.
Lemma dict_set_fresh d k v : k ∉ dict_keys d → dict_set d k v = d ++ [(k, v)].
Proof.
  unfold dict_keys. induction d as [|[k' v'] d IH]; simpl; [done|].
  intros H. apply not_elem_of_cons in H as [H1 H2].
  rewrite decide_False by done. f_equal. by apply IH.
Qed.
End Dict.

(** ** Prefetcher *)

Module Prefetcher.

Record t := {
  blocks : list string;
  caught_up : bool;
  fetched_height : option Z;
  cache_size : Z;
  min_cache_size : Z;
  ave_size : Z;
}.

(** [Prefetcher.__init__] *)
Definition init : t := {|
  blocks := [];
  caught_up := false;
  fetched_height := None;
  cache_size := 0;
  min_cache_size := 10 * 1024 * 1024;
  ave_size := (10 * 1024 * 1024) / 10;
|}.

(** [reset_height], the part before the daemon is asked for its height. *)
Definition reset_height (p : t) (height : Z) : t := {|
  blocks := [];
  caught_up := caught_up p;
  fetched_height := Some height;
  cache_size := 0;
  min_cache_size := min_cache_size p;
  ave_size := ave_size p;
|}.

(** Python's [//]: floor division, raising on a zero divisor. *)
Definition floordiv (a b : Z) : result Z :=
  if decide (b = 0) then Raise ZeroDivisionError else Ret (a / b).

(** The three lines that compute [count] in [_prefetch_blocks]. *)
Definition batch_count (p : t) (daemon_height : Z) : result Z :=
  cache_room ← floordiv (min_cache_size p) (ave_size p);
  fetched ← of_option TypeError (fetched_height p);
  let count := Z.min (daemon_height - fetched) cache_room in
  let count := Z.min 500 (Z.max count 0) in
  Ret count.

Definition block_len (b : string) : Z := Z.of_nat (String.length b).

Definition sum_sizes (bs : list string) : Z :=
  foldr (fun b acc => block_len b + acc) 0 bs.

(** What the daemon is asked for in one pass of the loop. *)
Record request := { first : Z; count : Z }.

(** The outcome of one pass through the body of the [while] loop. *)
Inductive pass :=
  | CaughtUp (p : t)                       (* [return False] *)
  | Fetched (rq : request) (p : t).        (* falls through to the loop test *)

Section Daemon.
(** [daemon.raw_blocks (daemon.block_hex_hashes first count)] *)
Variable raw_blocks : Z → Z → list string.
(** [coin.genesis_block] *)
Variable genesis_block : string → string.

Definition loop_body (p : t) (daemon_height : Z) : result pass :=
  n ← batch_count p daemon_height;
  if decide (n = 0) then
    Ret (CaughtUp {| blocks := blocks p; caught_up := true;
                     fetched_height := fetched_height p;
                     cache_size := cache_size p;
                     min_cache_size := min_cache_size p;
                     ave_size := ave_size p |})
  else
    fetched ← of_option TypeError (fetched_height p);
    let first := fetched + 1 in
    let bs := raw_blocks first n in
    if negb (bool_decide (n = Z.of_nat (length bs))) then Raise AssertionError
    else
      let bs := if decide (first = 0)
                then match bs with
                     | b :: rest => genesis_block b :: rest
                     | [] => bs
                     end
                else bs in
      let size := sum_sizes bs in
      let ave := if decide (10 ≤ n) then size / n
                 else (size + (10 - n) * ave_size p) / 10 in
      Ret (Fetched {| first := first; count := n |}
             {| blocks := blocks p ++ bs;
                caught_up := caught_up p;
                fetched_height := Some (fetched + n);
                cache_size := cache_size p + size;
                min_cache_size := min_cache_size p;
                ave_size := ave |}).

(** The [while] loop of [_prefetch_blocks] under the semaphore; the
    result lists, for every batch requested, the state the batch was
    computed from and the request.  The boolean is the value returned. *)
Fixpoint prefetch_loop (fuel : nat) (p : t) (daemon_height : Z)
    : result (list (t * request) * t * bool) :=
  match fuel with
  | O => Ret ([], p, true)
  | S fuel' =>
      if decide (cache_size p < min_cache_size p) then
        r ← loop_body p daemon_height;
        match r with
        | CaughtUp p' => Ret ([], p', false)
        | Fetched rq p' =>
            '(tr, q, b) ← prefetch_loop fuel' p' daemon_height;
            Ret ((p, rq) :: tr, q, b)
        end
      else Ret ([], p, true)
  end.
End Daemon.

(** The state invariant kept by [__init__] and by every batch: the byte
    budget and the block size estimate are not negative. *)
Definition wf (p : t) : Prop := 0 ≤ min_cache_size p ∧ 0 ≤ ave_size p.

(** The count as the specification writes it. *)
Definition spec_count (p : t) (fetched daemon_height : Z) : Z :=
  Z.min 500 (Z.min (Z.max 0 (daemon_height - fetched))
                   (min_cache_size p / ave_size p)).

Definition set_caught_up (p : t) : t :=
  {| blocks := blocks p; caught_up := true;
     fetched_height := fetched_height p; cache_size := cache_size p;
     min_cache_size := min_cache_size p; ave_size := ave_size p |}.

Lemma init_wf : wf init.
Proof. unfold wf; simpl. split; [lia|]. apply Z.div_pos; lia. Qed.

Lemma reset_height_wf p h : wf p → wf (reset_height p h).
Proof. by intros [??]. Qed.

Lemma sum_sizes_nonneg bs : 0 ≤ sum_sizes bs.
Proof.
  induction bs as [|b bs IH]; simpl; [done|].
  unfold block_len. lia.
Qed.

Lemma cache_room_nonneg p : wf p → 0 ≤ min_cache_size p / ave_size p.
Proof.
  intros [Hm Ha]. destruct (decide (ave_size p = 0)) as [->|Hne].
  - by rewrite Z.div_0_r.
  - apply Z.div_pos; lia.
Qed.

(** The code clamps after taking the minimum with the room, the
    specification before; with room for no fewer than zero blocks the two
    agree. *)
Lemma clamp_min_comm x room :
  0 ≤ room → Z.min 500 (Z.max (Z.min x room) 0) = Z.min 500 (Z.min (Z.max 0 x) room).
Proof. lia. Qed.

Lemma batch_count_eq p d fh :
  wf p → fetched_height p = Some fh → ave_size p ≠ 0 →
  batch_count p d = Ret (spec_count p fh d).
Proof.
  intros Hwf Hfh Hne. unfold batch_count, floordiv, spec_count.
  rewrite decide_False by done. simpl. rewrite Hfh. simpl.
  f_equal. apply clamp_min_comm. by apply cache_room_nonneg.
Qed.

Lemma batch_count_bounds p d n : batch_count p d = Ret n → 0 ≤ n ≤ 500.
Proof.
  unfold batch_count, floordiv. destruct (decide (ave_size p = 0)); [done|].
  simpl. destruct (fetched_height p); [|done]. simpl. intros [= <-]. lia.
Qed.

Section DaemonFacts.
Variable raw_blocks : Z → Z → list string.
Variable genesis_block : string → string.

(** Every batch leaves a well formed state behind. *)
Lemma loop_body_wf p d rq p' :
  wf p → loop_body raw_blocks genesis_block p d = Ret (Fetched rq p') → wf p'.
Proof.
  intros [Hm Ha]. unfold loop_body.
  destruct (batch_count p d) as [n|] eqn:Hn; [|done]. simpl.
  apply batch_count_bounds in Hn.
  destruct (decide (n = 0)); [done|].
  destruct (fetched_height p) as [fh|]; [|done]. simpl.
  case_match; [done|]. intros [= <- <-]. split; simpl; [done|].
  set (bs := if decide (fh + 1 = 0)
             then match raw_blocks (fh + 1) n with
                  | [] => raw_blocks (fh + 1) n
                  | b :: rest => genesis_block b :: rest
                  end
             else raw_blocks (fh + 1) n).
  pose proof (sum_sizes_nonneg bs) as Hsz.
  destruct (decide (10 ≤ n)).
  - apply Z.div_pos; lia.
  - apply Z.div_pos; [nia|lia].
Qed.

(** C8.  In a state the prefetcher can be in (byte budget and size estimate
    not negative, a fetched height set, the estimate not zero so that the
    division is defined), the count computed for a batch is
    [min 500 (max 0 (daemon_height - fetched_height)) (min_cache_size //
    ave_size)]: between 0 and 500 and at most the room.  When it is 0 the
    pass sets [caught_up] and returns without asking the daemon for
    anything; otherwise the daemon is asked for exactly that many blocks
    starting at [fetched_height + 1]. *)
Theorem prefetch_count_spec p d fh :
  wf p → fetched_height p = Some fh → ave_size p ≠ 0 →
  let n := spec_count p fh d in
  batch_count p d = Ret n ∧
  0 ≤ n ≤ 500 ∧ n ≤ min_cache_size p / ave_size p ∧
  (n = 0 →
     loop_body raw_blocks genesis_block p d = Ret (CaughtUp (set_caught_up p))) ∧
  (n ≠ 0 →
     (n ≠ Z.of_nat (length (raw_blocks (fh + 1) n)) ∧
      loop_body raw_blocks genesis_block p d = Raise AssertionError) ∨
     ∃ p', loop_body raw_blocks genesis_block p d
             = Ret (Fetched {| first := fh + 1; count := n |} p') ∧
           fetched_height p' = Some (fh + n)).
Proof.
  intros Hwf Hfh Hne n.
  pose proof (batch_count_eq p d fh Hwf Hfh Hne) as Hcount. fold n in Hcount.
  pose proof (cache_room_nonneg p Hwf) as Hroom.
  split; [done|]. split; [subst n; unfold spec_count; lia|].
  split; [subst n; unfold spec_count; lia|].
  unfold loop_body. rewrite Hcount. simpl. split.
  - intros Hz. by rewrite decide_True.
  - intros Hnz. rewrite decide_False by done. rewrite Hfh. simpl.
    destruct (bool_decide (n = Z.of_nat (length (raw_blocks (fh + 1) n)))) eqn:Hlen.
    + right. simpl. eexists. split; [reflexivity|done].
    + left. simpl. split; [|done]. by apply bool_decide_eq_false in Hlen.
Qed.

(** The property holds for every batch of a whole call of
    [_prefetch_blocks]. *)
Lemma prefetch_loop_batches fuel p d tr q b :
  wf p → prefetch_loop raw_blocks genesis_block fuel p d = Ret (tr, q, b) →
  Forall (λ '(p0, rq), cache_size p0 < min_cache_size p0 ∧
            ∃ fh, fetched_height p0 = Some fh ∧ first rq = fh + 1 ∧
                  count rq = spec_count p0 fh d ∧ 0 < count rq ≤ 500) tr.
Proof.
  revert p tr q b. induction fuel as [|fuel IH]; intros p tr q b Hwf; simpl.
  - by intros [= <- <- <-].
  - case_decide as Hlt; [|by intros [= <- <- <-]].
    destruct (loop_body raw_blocks genesis_block p d) as [[p'|rq p']|] eqn:Hbody;
      simpl; [by intros [= <- <- <-]| |done].
    destruct (prefetch_loop raw_blocks genesis_block fuel p' d)
      as [[[tr' q'] b']|] eqn:Hloop; simpl; [|done].
    intros [= <- <- <-]. constructor.
    + split; [done|]. pose proof Hbody as Hbody'. unfold loop_body in Hbody.
      destruct (batch_count p d) as [n|] eqn:Hn; [|done]. simpl in Hbody.
      destruct (decide (n = 0)); [done|].
      destruct (fetched_height p) as [fh|] eqn:Hfh; [|done]. simpl in Hbody.
      case_match; [done|]. injection Hbody as <- <-. simpl.
      exists fh. split; [done|]. split; [done|].
      assert (ave_size p ≠ 0) as Hne.
      { intros Hz. unfold batch_count, floordiv in Hn. by rewrite Hz in Hn. }
      rewrite (batch_count_eq p d fh Hwf Hfh Hne) in Hn. injection Hn as <-.
      split; [done|]. pose proof (cache_room_nonneg p Hwf).
      unfold spec_count in *. lia.
    + eapply IH; [|done]. by eapply loop_body_wf.
Qed.
End DaemonFacts.

(** The first batch after a reset to height 0 with the daemon at 100: the
    seeded estimate makes it ten blocks. *)
Lemma prefetch_count_spec_witness :
  batch_count (reset_height init 0) 100 = Ret 10.
Proof.
  pose proof (prefetch_count_spec (λ _ _, []) id (reset_height init 0) 100 0)
    as H.
  simpl in H. apply H.
  - apply reset_height_wf, init_wf.
  - reflexivity.
  - vm_compute. discriminate.
Defined.

End Prefetcher.

(** ** The key-value store and the revertable operations staged on it

    A row of a column family is a tuple of fields; [stage_put] and
    [stage_delete] of a column append a put or a delete of the whole
    row to the operation stack. *)

Inductive column :=
  | c_tx | c_tx_num | c_tx_hash | c_tx_count | c_header | c_block_hash
  | c_block_txs | c_hashX_history | c_utxo | c_hashX_utxo
  | c_claim_to_txo | c_txo_to_claim | c_claim_expiration | c_claim_short_id
  | c_claim_to_channel | c_channel_to_claim | c_repost | c_reposted_claim
  | c_claim_to_support | c_support_to_claim | c_activated
  | c_pending_activation | c_active_amount | c_claim_takeover
  | c_support_amount | c_effective_amount | c_channel_count
  | c_touched_or_deleted | c_undo | c_db_state.

#[global] Instance column_eq_dec : EqDecision column.
Proof. solve_decision. Defined.

Definition column_tag (c : column) : nat :=
  match c with
  | c_tx => 0 | c_tx_num => 1 | c_tx_hash => 2 | c_tx_count => 3
  | c_header => 4 | c_block_hash => 5 | c_block_txs => 6
  | c_hashX_history => 7 | c_utxo => 8 | c_hashX_utxo => 9
  | c_claim_to_txo => 10 | c_txo_to_claim => 11 | c_claim_expiration => 12
  | c_claim_short_id => 13 | c_claim_to_channel => 14
  | c_channel_to_claim => 15 | c_repost => 16 | c_reposted_claim => 17
  | c_claim_to_support => 18 | c_support_to_claim => 19 | c_activated => 20
  | c_pending_activation => 21 | c_active_amount => 22
  | c_claim_takeover => 23 | c_support_amount => 24
  | c_effective_amount => 25 | c_channel_count => 26
  | c_touched_or_deleted => 27 | c_undo => 28 | c_db_state => 29
  end%nat.

Definition column_of_tag (n : nat) : column :=
  match n with
  | 0 => c_tx | 1 => c_tx_num | 2 => c_tx_hash | 3 => c_tx_count
  | 4 => c_header | 5 => c_block_hash | 6 => c_block_txs
  | 7 => c_hashX_history | 8 => c_utxo | 9 => c_hashX_utxo
  | 10 => c_claim_to_txo | 11 => c_txo_to_claim | 12 => c_claim_expiration
  | 13 => c_claim_short_id | 14 => c_claim_to_channel
  | 15 => c_channel_to_claim | 16 => c_repost | 17 => c_reposted_claim
  | 18 => c_claim_to_support | 19 => c_support_to_claim | 20 => c_activated
  | 21 => c_pending_activation | 22 => c_active_amount
  | 23 => c_claim_takeover | 24 => c_support_amount
  | 25 => c_effective_amount | 26 => c_channel_count
  | 27 => c_touched_or_deleted | 28 => c_undo | _ => c_db_state
  end%nat.

#[global] Instance column_countable : Countable column.
Proof.
  refine (inj_countable' column_tag column_of_tag _). by intros [].
Defined.

(** A field of a key or of a row: an [int], [bytes], a [str], a [bool] or
    [None]. *)
Inductive atom :=
  | AInt (z : Z)
  | ABytes (b : string)
  | AStr (s : string)
  | ABool (b : bool)
  | ANone.

#[global] Instance atom_eq_dec : EqDecision atom.
Proof. solve_decision. Defined.

#[global] Instance atom_countable : Countable atom.
Proof.
  refine (inj_countable'
    (λ a, match a with
          | AInt z => inl (inl z) | ABytes b => inl (inr b)
          | AStr s => inr (inl s) | ABool b => inr (inr (Some b))
          | ANone => inr (inr None)
          end)
    (λ e, match e with
          | inl (inl z) => AInt z | inl (inr b) => ABytes b
          | inr (inl s) => AStr s | inr (inr (Some b)) => ABool b
          | inr (inr None) => ANone
          end) _).
  by intros [].
Defined.

Definition dbkey : Type := column * list atom.

(** A stored value is a row, a list of rows, or, in the undo column, the
    operations that revert a block. *)
Inductive dbvalue :=
  | Row (fields : list atom)
  | Rows (rows : list (list atom))
  | UndoOps (ops : list RevertableOp)
with RevertableOp :=
  | RevertablePut (k : dbkey) (v : dbvalue)
  | RevertableDelete (k : dbkey) (v : dbvalue).

Definition op_key (op : RevertableOp) : dbkey :=
  match op with
  | RevertablePut k _ | RevertableDelete k _ => k
  end.

Definition is_put (op : RevertableOp) : bool :=
  match op with
  | RevertablePut _ _ => true
  | RevertableDelete _ _ => false
  end.


(** [column.stage_put key_args value_args] and [stage_delete] as the
    operation they append. *)
Definition stage_put (c : column) (key_args value_args : list atom)
    : RevertableOp :=
  RevertablePut (c, key_args) (Row value_args).

Definition stage_delete (c : column) (key_args value_args : list atom)
    : RevertableOp :=
  RevertableDelete (c, key_args) (Row value_args).

(** The effect of an operation written to the store. *)
Definition apply_op (s : gmap dbkey dbvalue) (op : RevertableOp)
    : gmap dbkey dbvalue :=
  match op with
  | RevertablePut k v => <[k:=v]> s
  | RevertableDelete k _ => delete k s
  end.

Definition apply_ops (s : gmap dbkey dbvalue) (ops : list RevertableOp)
    : gmap dbkey dbvalue :=
  foldl apply_op s ops.

Lemma apply_ops_app s ops1 ops2 :
  apply_ops s (ops1 ++ ops2) = apply_ops (apply_ops s ops1) ops2.
Proof. apply foldl_app. Qed.

Lemma apply_op_other s op k : op_key op ≠ k → apply_op s op !! k = s !! k.
Proof.
  destruct op as [k' v|k' v]; simpl; intros Hne.
  - by rewrite lookup_insert_ne.
  - by rewrite lookup_delete_ne.
Qed.

Lemma apply_ops_other s ops k :
  Forall (λ op, op_key op ≠ k) ops → apply_ops s ops !! k = s !! k.
Proof.
  revert s. induction ops as [|op ops IH]; intros s Hall; [done|].
  apply Forall_cons in Hall as [Hop Hall]. simpl.
  unfold apply_ops in IH. rewrite IH by done. by apply apply_op_other.
Qed.

(** The truth value of an optional byte string: [None] and [b''] are
    false. *)
Definition truthy_bytes (o : option string) : bool :=
  match o with
  | Some s => negb (bool_decide (s = ""))
  | None => false
  end.

Definition opt_bytes (o : option string) : atom :=
  match o with
  | Some s => ABytes s
  | None => ANone
  end.

(** Operations on other columns do not show in a column. *)
Definition agree_on (c : column) (s1 s2 : gmap dbkey dbvalue) : Prop :=
  ∀ k, s1 !! (c, k) = s2 !! (c, k).

Lemma apply_op_agree c s1 s2 op :
  agree_on c s1 s2 → agree_on c (apply_op s1 op) (apply_op s2 op).
Proof.
  intros Hag k. destruct op as [k' v|k' v]; simpl.
  - destruct (decide (k' = (c, k))) as [->|Hne].
    + by rewrite !lookup_insert_eq.
    + by rewrite !lookup_insert_ne.
  - destruct (decide (k' = (c, k))) as [->|Hne].
    + by rewrite !lookup_delete_eq.
    + by rewrite !lookup_delete_ne.
Qed.

Lemma apply_op_agree_skip c s1 s2 op :
  (op_key op).1 ≠ c → agree_on c s1 s2 → agree_on c (apply_op s1 op) s2.
Proof.
  intros Hc Hag k. rewrite apply_op_other; [apply Hag|].
  intros Heq. by rewrite Heq in Hc.
Qed.

Lemma apply_ops_column s ops c k :
  apply_ops s ops !! (c, k)
  = apply_ops s (filter (λ op, (op_key op).1 = c) ops) !! (c, k).
Proof.
  enough (∀ s1 s2, agree_on c s1 s2 →
            agree_on c (apply_ops s1 ops)
              (apply_ops s2 (filter (λ op, (op_key op).1 = c) ops))) as H.
  { by apply H. }
  induction ops as [|op ops IH]; intros s1 s2 Hag; [done|].
  rewrite filter_cons. case_decide as Hc; simpl.
  - apply IH. by apply apply_op_agree.
  - apply IH. by apply apply_op_agree_skip.
Qed.

(** ** Staged claims *)

Module Claims.

Record StagedClaimtrieItem := {
  name : string;
  normalized_name : string;
  claim_hash : string;
  amount : Z;
  expiration_height : Z;
  tx_num : Z;
  position : Z;
  root_tx_num : Z;
  root_position : Z;
  channel_signature_is_valid : bool;
  signing_hash : option string;
  reposted_claim_hash : option string;
}.

(** [StagedClaimtrieItem.is_update] *)
Definition is_update (c : StagedClaimtrieItem) : bool :=
  negb (bool_decide ((tx_num c, position c) = (root_tx_num c, root_position c))).

(** [StagedClaimtrieItem.invalidate_signature] *)
Definition invalidate_signature (c : StagedClaimtrieItem) : StagedClaimtrieItem :=
  {| name := name c; normalized_name := normalized_name c;
     claim_hash := claim_hash c; amount := amount c;
     expiration_height := expiration_height c; tx_num := tx_num c;
     position := position c; root_tx_num := root_tx_num c;
     root_position := root_position c;
     channel_signature_is_valid := false; signing_hash := None;
     reposted_claim_hash := reposted_claim_hash c |}.

(** [bytes.hex] *)
Definition hex_digit (n : N) : Ascii.ascii :=
  match n with
  | 0 => "0" | 1 => "1" | 2 => "2" | 3 => "3" | 4 => "4" | 5 => "5"
  | 6 => "6" | 7 => "7" | 8 => "8" | 9 => "9" | 10 => "a" | 11 => "b"
  | 12 => "c" | 13 => "d" | 14 => "e" | _ => "f"
  end%N%char.

Fixpoint hex (b : string) : string :=
  match b with
  | EmptyString => EmptyString
  | String a rest =>
      let n := Ascii.N_of_ascii a in
      String (hex_digit (n / 16)) (String (hex_digit (n mod 16)) (hex rest))
  end%N.

(** The value tuple of a [claim_to_txo] row. *)
Definition claim_to_txo_row (c : StagedClaimtrieItem) (valid : bool) : list atom :=
  [AInt (tx_num c); AInt (position c); AInt (root_tx_num c);
   AInt (root_position c); AInt (amount c); ABool valid; AStr (name c)].

(** The ten [claim_short_id] rows: [for prefix_len in range(10)]. *)
Definition short_id_ops (stage : column → list atom → list atom → RevertableOp)
    (c : StagedClaimtrieItem) : list RevertableOp :=
  (λ prefix_len : nat,
     stage c_claim_short_id
       [AStr (normalized_name c);
        AStr (String.substring 0 (prefix_len + 1) (hex (claim_hash c)));
        AInt (root_tx_num c); AInt (root_position c)]
       [AInt (tx_num c); AInt (position c)]) <$> seq 0 10.

Definition claim_ops (stage : column → list atom → list atom → RevertableOp)
    (c : StagedClaimtrieItem) : list RevertableOp :=
  [ (* claim tip by claim hash *)
    stage c_claim_to_txo [ABytes (claim_hash c)]
      (claim_to_txo_row c (channel_signature_is_valid c));
    (* claim hash by txo *)
    stage c_txo_to_claim [AInt (tx_num c); AInt (position c)]
      [ABytes (claim_hash c); AStr (normalized_name c)];
    (* claim expiration *)
    stage c_claim_expiration
      [AInt (expiration_height c); AInt (tx_num c); AInt (position c)]
      [ABytes (claim_hash c); AStr (normalized_name c)] ]
  (* short url resolution *)
  ++ short_id_ops stage c
  ++ (if truthy_bytes (signing_hash c) && channel_signature_is_valid c then
        [ (* channel by stream *)
          stage c_claim_to_channel
            [ABytes (claim_hash c); AInt (tx_num c); AInt (position c)]
            [opt_bytes (signing_hash c)];
          (* stream by channel *)
          stage c_channel_to_claim
            [opt_bytes (signing_hash c); AStr (normalized_name c);
             AInt (tx_num c); AInt (position c)]
            [ABytes (claim_hash c)] ]
      else [])
  ++ (if truthy_bytes (reposted_claim_hash c) then
        [ stage c_repost [ABytes (claim_hash c)]
            [opt_bytes (reposted_claim_hash c)];
          stage c_reposted_claim
            [opt_bytes (reposted_claim_hash c); AInt (tx_num c);
             AInt (position c)]
            [ABytes (claim_hash c)] ]
      else []).

(** [get_add_claim_utxo_ops] *)
Definition get_add_claim_utxo_ops (pending : StagedClaimtrieItem)
    : list RevertableOp :=
  claim_ops stage_put pending.

(** [get_remove_claim_utxo_ops] *)
Definition get_remove_claim_utxo_ops (pending : StagedClaimtrieItem)
    : list RevertableOp :=
  claim_ops stage_delete pending.

(** [_get_invalidate_signature_ops] *)
Definition _get_invalidate_signature_ops (pending : StagedClaimtrieItem)
    : list RevertableOp :=
  if negb (truthy_bytes (signing_hash pending)) then []
  else
    [ stage_delete c_claim_to_channel
        [ABytes (claim_hash pending); AInt (tx_num pending);
         AInt (position pending)]
        [opt_bytes (signing_hash pending)] ]
    ++ (if channel_signature_is_valid pending then
          [ stage_delete c_channel_to_claim
              [opt_bytes (signing_hash pending);
               AStr (normalized_name pending); AInt (tx_num pending);
               AInt (position pending)]
              [ABytes (claim_hash pending)];
            stage_delete c_claim_to_txo [ABytes (claim_hash pending)]
              (claim_to_txo_row pending (channel_signature_is_valid pending));
            stage_put c_claim_to_txo [ABytes (claim_hash pending)]
              (claim_to_txo_row pending false) ]
        else []).

(** The three paths that stage rows of [claim_to_txo] and
    [txo_to_claim]. *)
Inductive staging_path :=
  | AddClaim (pending : StagedClaimtrieItem)
  | RemoveClaim (pending : StagedClaimtrieItem)
  | InvalidateSignature (pending : StagedClaimtrieItem).

Definition path_item (p : staging_path) : StagedClaimtrieItem :=
  match p with
  | AddClaim c | RemoveClaim c | InvalidateSignature c => c
  end.

Definition path_ops (p : staging_path) : list RevertableOp :=
  match p with
  | AddClaim c => get_add_claim_utxo_ops c
  | RemoveClaim c => get_remove_claim_utxo_ops c
  | InvalidateSignature c => _get_invalidate_signature_ops c
  end.

(** The txo a claim hash is at, read from [claim_to_txo]. *)
Definition claim_txo (s : gmap dbkey dbvalue) (h : string) : option (Z * Z) :=
  match s !! (c_claim_to_txo, [ABytes h]) with
  | Some (Row (AInt t :: AInt p :: _)) => Some (t, p)
  | _ => None
  end.

(** The claim hash at a txo, read from [txo_to_claim]. *)
Definition txo_claim (s : gmap dbkey dbvalue) (t p : Z) : option string :=
  match s !! (c_txo_to_claim, [AInt t; AInt p]) with
  | Some (Row (ABytes h :: _)) => Some h
  | _ => None
  end.

(** The two columns are inverses of each other. *)
Definition mutual_inverses (s : gmap dbkey dbvalue) : Prop :=
  ∀ h t p, claim_txo s h = Some (t, p) ↔ txo_claim s t p = Some h.

(** What the callers of a path have established when they take it: a
    claim is added at a claim hash and a txo that hold no row (an update
    has spent the previous txo before), and it is removed or has its
    signature invalidated where its row is. *)
Definition applicable (s : gmap dbkey dbvalue) (p : staging_path) : Prop :=
  match p with
  | AddClaim c =>
      claim_txo s (claim_hash c) = None ∧
      txo_claim s (tx_num c) (position c) = None
  | RemoveClaim c | InvalidateSignature c =>
      claim_txo s (claim_hash c) = Some (tx_num c, position c)
  end.

(** *** The effect of the three paths on the two columns *)

Definition claim_cols (op : RevertableOp) : Prop :=
  (op_key op).1 = c_claim_to_txo ∨ (op_key op).1 = c_txo_to_claim.

Lemma apply_ops_no_claim_cols s ops c k :
  c = c_claim_to_txo ∨ c = c_txo_to_claim →
  Forall (λ op, ¬ claim_cols op) ops →
  apply_ops s ops !! (c, k) = s !! (c, k).
Proof.
  intros Hc Hall. apply apply_ops_other.
  eapply Forall_impl; [exact Hall|]. intros op Hop Heq. apply Hop.
  unfold claim_cols. rewrite Heq. simpl. done.
Qed.

Section Stage.
Variable stage : column → list atom → list atom → RevertableOp.
Hypothesis stage_key : ∀ c k v, op_key (stage c k v) = (c, k).

Lemma short_id_ops_cols c : Forall (λ op, ¬ claim_cols op) (short_id_ops stage c).
Proof.
  unfold short_id_ops. apply Forall_fmap, Forall_forall. intros n _.
  unfold claim_cols. simpl. rewrite stage_key. simpl. intros [?|?]; done.
Qed.

Lemma claim_ops_split c :
  ∃ rest, claim_ops stage c =
    [ stage c_claim_to_txo [ABytes (claim_hash c)]
        (claim_to_txo_row c (channel_signature_is_valid c));
      stage c_txo_to_claim [AInt (tx_num c); AInt (position c)]
        [ABytes (claim_hash c); AStr (normalized_name c)] ] ++ rest ∧
    Forall (λ op, ¬ claim_cols op) rest.
Proof.
  unfold claim_ops. eexists. split; [reflexivity|].
  apply Forall_cons. split.
  { unfold claim_cols. rewrite stage_key. simpl. intros [?|?]; done. }
  apply Forall_app. split; [apply short_id_ops_cols|].
  apply Forall_app. split.
  - destruct (truthy_bytes (signing_hash c) && channel_signature_is_valid c);
      [|constructor].
    repeat (apply Forall_cons; split; [|]); try constructor.
    all: unfold claim_cols; rewrite stage_key; simpl; intros [?|?]; done.
  - destruct (truthy_bytes (reposted_claim_hash c)); [|constructor].
    repeat (apply Forall_cons; split; [|]); try constructor.
    all: unfold claim_cols; rewrite stage_key; simpl; intros [?|?]; done.
Qed.
End Stage.

Lemma add_claim_txo s c h :
  claim_txo (apply_ops s (get_add_claim_utxo_ops c)) h
  = if decide (h = claim_hash c) then Some (tx_num c, position c)
    else claim_txo s h.
Proof.
  unfold get_add_claim_utxo_ops.
  destruct (claim_ops_split stage_put (λ _ _ _, eq_refl) c) as (rest & -> & Hrest).
  unfold claim_txo. rewrite apply_ops_app.
  rewrite apply_ops_no_claim_cols by (done || by left). simpl.
  rewrite lookup_insert_ne by done.
  case_decide as Hh.
  - subst h. by rewrite lookup_insert_eq.
  - rewrite lookup_insert_ne; [done|]. intros [= ?]. done.
Qed.

Lemma add_txo_claim s c t p :
  txo_claim (apply_ops s (get_add_claim_utxo_ops c)) t p
  = if decide ((t, p) = (tx_num c, position c)) then Some (claim_hash c)
    else txo_claim s t p.
Proof.
  unfold get_add_claim_utxo_ops.
  destruct (claim_ops_split stage_put (λ _ _ _, eq_refl) c) as (rest & -> & Hrest).
  unfold txo_claim. rewrite apply_ops_app.
  rewrite apply_ops_no_claim_cols by (done || by right). simpl.
  case_decide as Hh.
  - injection Hh as -> ->. by rewrite lookup_insert_eq.
  - rewrite lookup_insert_ne by (intros [= ? ?]; congruence).
    by rewrite lookup_insert_ne.
Qed.

Lemma remove_claim_txo s c h :
  claim_txo (apply_ops s (get_remove_claim_utxo_ops c)) h
  = if decide (h = claim_hash c) then None else claim_txo s h.
Proof.
  unfold get_remove_claim_utxo_ops.
  destruct (claim_ops_split stage_delete (λ _ _ _, eq_refl) c) as (rest & -> & Hrest).
  unfold claim_txo. rewrite apply_ops_app.
  rewrite apply_ops_no_claim_cols by (done || by left). simpl.
  rewrite lookup_delete_ne by done.
  case_decide as Hh.
  - subst h. by rewrite lookup_delete_eq.
  - rewrite lookup_delete_ne; [done|]. intros [= ?]. done.
Qed.

Lemma remove_txo_claim s c t p :
  txo_claim (apply_ops s (get_remove_claim_utxo_ops c)) t p
  = if decide ((t, p) = (tx_num c, position c)) then None
    else txo_claim s t p.
Proof.
  unfold get_remove_claim_utxo_ops.
  destruct (claim_ops_split stage_delete (λ _ _ _, eq_refl) c) as (rest & -> & Hrest).
  unfold txo_claim. rewrite apply_ops_app.
  rewrite apply_ops_no_claim_cols by (done || by right). simpl.
  case_decide as Hh.
  - injection Hh as -> ->. by rewrite lookup_delete_eq.
  - rewrite lookup_delete_ne by (intros [= ? ?]; congruence).
    by rewrite lookup_delete_ne.
Qed.

Lemma invalidate_claim_txo s c h :
  claim_txo (apply_ops s (_get_invalidate_signature_ops c)) h
  = if decide (h = claim_hash c)
    then if truthy_bytes (signing_hash c) && channel_signature_is_valid c
         then Some (tx_num c, position c) else claim_txo s h
    else claim_txo s h.
Proof.
  unfold _get_invalidate_signature_ops, claim_txo.
  destruct (truthy_bytes (signing_hash c)); simpl; [|by case_decide].
  destruct (channel_signature_is_valid c); simpl.
  - case_decide as Hh.
    + subst h. by rewrite lookup_insert_eq.
    + rewrite lookup_insert_ne by (intros [= ?]; done).
      rewrite lookup_delete_ne by (intros [= ?]; done).
      by rewrite !lookup_delete_ne.
  - rewrite lookup_delete_ne by done. by case_decide.
Qed.

Lemma invalidate_txo_claim s c t p :
  txo_claim (apply_ops s (_get_invalidate_signature_ops c)) t p = txo_claim s t p.
Proof.
  unfold _get_invalidate_signature_ops, txo_claim.
  destruct (truthy_bytes (signing_hash c)); simpl; [|done].
  destruct (channel_signature_is_valid c); simpl.
  - rewrite lookup_insert_ne by done. by rewrite !lookup_delete_ne.
  - by rewrite lookup_delete_ne.
Qed.

(** C5.  Each of the three staging paths (a claim added, a claim removed,
    a signature invalidated), taken where its callers take it, keeps
    [claim_to_txo] and [txo_to_claim] inverses of each other: a claim hash
    is at a txo in the one exactly when that txo holds the claim hash in
    the other. *)
Theorem claim_txo_inverses_preserved s path :
  mutual_inverses s → applicable s path →
  mutual_inverses (apply_ops s (path_ops path)).
Proof.
  intros Hinv Happ h t p.
  destruct path as [c|c|c]; cbn [path_ops applicable] in *.
  - destruct Happ as [Hfresh1 Hfresh2].
    rewrite add_claim_txo, add_txo_claim.
    destruct (decide (h = claim_hash c)) as [->|Hh],
             (decide ((t, p) = (tx_num c, position c))) as [Htp|Htp].
    + injection Htp as -> ->. done.
    + split; [intros [= ? ?]; congruence|].
      intros H. apply Hinv in H. congruence.
    + injection Htp as -> ->. split; [|intros [= ?]; congruence].
      intros H. apply Hinv in H. congruence.
    + apply Hinv.
  - rewrite remove_claim_txo, remove_txo_claim.
    destruct (decide (h = claim_hash c)) as [->|Hh],
             (decide ((t, p) = (tx_num c, position c))) as [Htp|Htp].
    + done.
    + split; [done|]. intros H. apply Hinv in H. congruence.
    + injection Htp as -> ->. split; [|done].
      intros H. apply Hinv in H. apply Hinv in Happ. congruence.
    + apply Hinv.
  - rewrite invalidate_claim_txo, invalidate_txo_claim.
    destruct (decide (h = claim_hash c)) as [->|Hh]; [|apply Hinv].
    destruct (truthy_bytes (signing_hash c) && channel_signature_is_valid c);
      [|apply Hinv].
    rewrite <- Happ. apply Hinv.
Qed.

(** A first claim of the name [hello] made by output 1 of transaction 7,
    added to an empty store. *)
Definition hello_claim : StagedClaimtrieItem :=
  {| name := "hello"; normalized_name := "hello"; claim_hash := "c1";
     amount := 100; expiration_height := 2102400; tx_num := 7; position := 1;
     root_tx_num := 7; root_position := 1;
     channel_signature_is_valid := false; signing_hash := None;
     reposted_claim_hash := None |}.

Lemma claim_txo_inverses_preserved_witness :
  mutual_inverses (apply_ops ∅ (path_ops (AddClaim hello_claim))).
Proof.
  apply (claim_txo_inverses_preserved ∅ (AddClaim hello_claim)).
  - intros h t p. unfold claim_txo, txo_claim. rewrite !lookup_empty. done.
  - split; reflexivity.
Defined.

End Claims.

(** ** Spending an output: [spend_utxo] *)

Module Utxo.

(** The fields of the block processor that [spend_utxo] reads and
    writes. *)
Record state := {
  utxo_cache : gmap (string * Z) (string * Z);
  pending_transaction_num_mapping : gmap string Z;
  touched_hashXs : gset string;
  op_stack : list RevertableOp;
}.

Section Db.
(** [db.get_tx_num] *)
Variable db_get_tx_num : string → Z.
(** [db.prefix_db.hashX_utxo.get]: the [hashX] of the row, when there is
    one. *)
Variable hashX_utxo_get : string → Z → Z → option string.
(** [db.prefix_db.utxo.get]: the [amount] of the row, when there is one. *)
Variable utxo_get : string → Z → Z → option Z.

(** [tx_hash[:4]] *)
Definition short_hash (tx_hash : string) : string :=
  String.substring 0 4 tx_hash.

(** [get_pending_tx_num] *)
Definition get_pending_tx_num (st : state) (tx_hash : string) : Z :=
  match pending_transaction_num_mapping st !! tx_hash with
  | Some n => n
  | None => db_get_tx_num tx_hash
  end.

Definition stage (st : state) (cache : gmap (string * Z) (string * Z))
    (hashX : string) (ops : list RevertableOp) : state :=
  {| utxo_cache := cache;
     pending_transaction_num_mapping := pending_transaction_num_mapping st;
     touched_hashXs := {[hashX]} ∪ touched_hashXs st;
     op_stack := op_stack st ++ ops |}.

Definition set_cache (st : state)
    (cache : gmap (string * Z) (string * Z)) : state :=
  {| utxo_cache := cache;
     pending_transaction_num_mapping := pending_transaction_num_mapping st;
     touched_hashXs := touched_hashXs st;
     op_stack := op_stack st |}.

(** [spend_utxo]: the value returned ([None] for a bare [return]) and the
    state left, or the exception raised. *)
Definition spend_utxo (st : state) (tx_hash : string) (nout : Z)
    : result (option string * state) :=
  (* [self.utxo_cache.pop((tx_hash, nout), (None, None))] *)
  let '(hashX, amount) :=
    match utxo_cache st !! (tx_hash, nout) with
    | Some (hashX, amount) => (Some hashX, Some amount)
    | None => (None, None)
    end in
  let cache := delete (tx_hash, nout) (utxo_cache st) in
  let txin_num := get_pending_tx_num st tx_hash in
  if negb (truthy_bytes hashX) then
    match hashX_utxo_get (short_hash tx_hash) txin_num nout with
    | None => Ret (None, set_cache st cache)
    | Some hashX =>
        match utxo_get hashX txin_num nout with
        | None => Raise ChainError
        | Some utxo_amount =>
            Ret (Some hashX,
                 stage st cache hashX
                   [ stage_delete c_hashX_utxo
                       [ABytes (short_hash tx_hash); AInt txin_num; AInt nout]
                       [ABytes hashX];
                     stage_delete c_utxo
                       [ABytes hashX; AInt txin_num; AInt nout]
                       [AInt utxo_amount] ])
        end
    end
  else
    match hashX, amount with
    | Some hashX, Some amount =>
        Ret (Some hashX,
             stage st cache hashX
               [ stage_delete c_hashX_utxo
                   [ABytes (short_hash tx_hash); AInt txin_num; AInt nout]
                   [ABytes hashX];
                 stage_delete c_utxo
                   [ABytes hashX; AInt txin_num; AInt nout]
                   [AInt amount] ])
    | _, _ => Ret (None, set_cache st cache)
    end.

(** The spent output is missing: it is not staged in this block and the
    lookup through [hashX_utxo] and [utxo] does not resolve it. *)
Definition missing (st : state) (tx_hash : string) (nout : Z) : Prop :=
  utxo_cache st !! (tx_hash, nout) = None ∧
  match hashX_utxo_get (short_hash tx_hash) (get_pending_tx_num st tx_hash) nout with
  | None => True
  | Some hashX => utxo_get hashX (get_pending_tx_num st tx_hash) nout = None
  end.

(** C6, as amended.  For a missing spent output [spend_utxo] raises
    [ChainError] exactly when [hashX_utxo] has a row for the output and
    [utxo] has none for the hashX of that row; when [hashX_utxo] has no row
    either it returns [None], stages nothing and touches no hashX. *)
Theorem spend_utxo_missing st tx_hash nout :
  missing st tx_hash nout →
  match hashX_utxo_get (short_hash tx_hash) (get_pending_tx_num st tx_hash) nout with
  | Some _ => spend_utxo st tx_hash nout = Raise ChainError
  | None => spend_utxo st tx_hash nout = Ret (None, st)
  end.
Proof.
  intros [Hcache Hdb]. unfold spend_utxo. rewrite Hcache. simpl.
  destruct (hashX_utxo_get _ _ _) as [hashX|] eqn:Hx.
  - by rewrite Hdb.
  - f_equal. f_equal. destruct st as [cache ? ? ?]. unfold set_cache; simpl in *.
    f_equal. by apply delete_id.
Qed.
End Db.

(** A block processor that has staged nothing, and a database in which
    neither [hashX_utxo] nor [utxo] has any row. *)
Definition empty_state : state :=
  {| utxo_cache := ∅; pending_transaction_num_mapping := ∅;
     touched_hashXs := ∅; op_stack := [] |}.

(** C6 as stated fails: the output of transaction [aaaa] at index 0 is
    neither staged nor in the database, and the spend returns [None]
    instead of raising [ChainError]. *)
Lemma spend_utxo_missing_silent :
  missing (λ _, 0) (λ _ _ _, None) (λ _ _ _, None) empty_state "aaaa" 0 ∧
  spend_utxo (λ _, 0) (λ _ _ _, None) (λ _ _ _, None) empty_state "aaaa" 0
  ≠ Raise ChainError.
Proof. split; [split; reflexivity|]. vm_compute. discriminate. Qed.

Lemma spend_utxo_missing_witness :
  spend_utxo (λ _, 0) (λ h _ _, if decide (h = "aaaa") then Some "hx" else None)
    (λ _ _ _, None) empty_state "aaaabbbb" 0 = Raise ChainError.
Proof.
  pose proof (spend_utxo_missing (λ _, 0)
                (λ h _ _, if decide (h = "aaaa") then Some "hx" else None)
                (λ _ _ _, None) empty_state "aaaabbbb" 0) as H.
  cbv [short_hash String.substring] in H. simpl in H. apply H.
  split; reflexivity.
Defined.

End Utxo.

(** ** The mempool *)

Module MemPool.

(** A key of [hashXs] and a member of the touched sets: a hashX, or [None]
    for a script without one. *)
Abbreviation hashX := (option string).

Record MemPoolTx := {
  prevouts : list (string * nat);
  in_pairs : option (list (hashX * Z));
  out_pairs : list (hashX * Z);
  fee : Z;
  size : Z;
  raw_tx : string;
}.

Record t := {
  _touched_mp : gmap Z (gset hashX);
  _touched_bp : gmap Z (gset hashX);
  _highest_block : Z;
  txs : gmap string MemPoolTx;
  hashXs : gmap hashX (gset string);
}.

(** [MemPool.__init__] *)
Definition init : t :=
  {| _touched_mp := ∅; _touched_bp := ∅; _highest_block := -1;
     txs := ∅; hashXs := ∅ |}.

Definition set_notify (mp : t) (tmp tbp : gmap Z (gset hashX)) (highest : Z) : t :=
  {| _touched_mp := tmp; _touched_bp := tbp; _highest_block := highest;
     txs := txs mp; hashXs := hashXs mp |}.

Definition set_pool (mp : t) (txs' : gmap string MemPoolTx)
    (hashXs' : gmap hashX (gset string)) : t :=
  {| _touched_mp := _touched_mp mp; _touched_bp := _touched_bp mp;
     _highest_block := _highest_block mp; txs := txs'; hashXs := hashXs' |}.

(** *** Notifications *)

(** A call of [notify_sessions]. *)
Record notification := {
  n_height : Z;
  n_touched : gset hashX;
  n_new_touched : gset hashX;
}.

(** [max] of a set of heights; [None] stands for the [ValueError] on an
    empty one. *)
Definition max_height (s : gset Z) : option Z :=
  foldr (λ h acc, Some (from_option (Z.max h) h acc)) None (elements s).

(** [_maybe_notify] *)
Definition _maybe_notify (mp : t) (new_touched : gset hashX)
    : result (t * option notification) :=
  let tmp := _touched_mp mp in
  let tbp := _touched_bp mp in
  let common := dom tmp ∩ dom tbp in
  height ←
    (if decide (common ≠ ∅) then
       h ← of_option ValueError (max_height common); Ret (Some h)
     else if decide (tmp ≠ ∅) then
       m ← of_option ValueError (max_height (dom tmp));
       if decide (m = _highest_block mp) then Ret (Some (_highest_block mp))
       else Ret None
     else Ret None);
  match height with
  | None =>
      (* Either we are processing a block and waiting for it to come in,
         or we have not yet had a mempool update for the new block height *)
      Ret (mp, None)
  | Some height =>
      touched ← of_option KeyError (tmp !! height);
      let tmp := delete height tmp in
      let tmp := filter (λ kv, ¬ kv.1 ≤ height) tmp in
      let old := filter (λ kv, kv.1 ≤ height) tbp in
      let touched := map_fold (λ _ s acc, acc ∪ s) touched old in
      let tbp := filter (λ kv, ¬ kv.1 ≤ height) tbp in
      Ret (set_notify mp tmp tbp (_highest_block mp),
           Some {| n_height := height; n_touched := touched;
                   n_new_touched := new_touched |})
  end.

Inductive event :=
  | on_mempool (touched new_touched : gset hashX) (height : Z)
  | on_block (touched : gset hashX) (height : Z).


(** [on_mempool] and [on_block] *)
Definition handle (mp : t) (e : event) : result (t * option notification) :=
  match e with
  | on_mempool touched new_touched height =>
      _maybe_notify
        (set_notify mp (<[height:=touched]> (_touched_mp mp)) (_touched_bp mp)
           (_highest_block mp))
        new_touched
  | on_block touched height =>
      _maybe_notify
        (set_notify mp (_touched_mp mp) (<[height:=touched]> (_touched_bp mp))
           height)
        ∅
  end.

(** A sequence of calls, from a given state: the state reached and the
    notifications emitted, in order. *)
Fixpoint run (mp : t) (evs : list event) : result (t * list notification) :=
  match evs with
  | [] => Ret (mp, [])
  | e :: evs =>
      '(mp, n) ← handle mp e;
      '(mp, ns) ← run mp evs;
      Ret (mp, from_option (λ n, [n]) [] n ++ ns)
  end.

















(** [start]: the state it leaves and the notification it sends itself. *)
Definition start (mp : t) (height : Z) : t * notification :=
  (set_notify mp (_touched_mp mp) (_touched_bp mp) height,
   {| n_height := height; n_touched := ∅; n_new_touched := ∅ |}).

(** The refresh of the witness does notify, at height 5 and with both
    touched sets. *)
Example block_then_mempool_notifies :
  ∃ mp ns mp',
    run init [on_block {[Some "a"]} 5] = Ret (mp, ns) ∧ ns = [] ∧
    handle mp (on_mempool {[Some "b"]} ∅ 5)
    = Ret (mp', Some {| n_height := 5; n_touched := {[Some "a"; Some "b"]};
                        n_new_touched := ∅ |}).
Proof.
  eexists _, _, _. split; [reflexivity|]. split; [reflexivity|].
  vm_compute. reflexivity.
Qed.

(** After [start] at height 5 the first mempool refresh at that height
    notifies although [on_block] has not been called: the property above
    is one of the sequences of [on_block] and [on_mempool] calls alone. *)
Example start_then_mempool_notifies :
  ∃ mp' no,
    handle (start init 5).1 (on_mempool {[Some "b"]} ∅ 5) = Ret (mp', Some no) ∧
    n_height no = 5.
Proof. eexists _, _. split; [vm_compute; reflexivity|reflexivity]. Qed.

(** *** Refreshing the pool *)

(** The hashXs of a transaction's inputs and outputs; the inputs are known
    once the transaction is accepted. *)
Definition pair_hashXs (pairs : list (hashX * Z)) : gset hashX :=
  list_to_set pairs.*1.

Definition tx_hashXs (tx : MemPoolTx) : option (gset hashX) :=
  ins ← in_pairs tx; Some (pair_hashXs ins ∪ pair_hashXs (out_pairs tx)).

Definition sum_values (pairs : list (hashX * Z)) : Z :=
  foldr (λ p acc, p.2 + acc) 0 pairs.

(** [hashXs[hashX].add(hash)] on the [defaultdict(set)] *)
Definition hashXs_add (hs : gmap hashX (gset string)) (hX : hashX) (h : string)
    : gmap hashX (gset string) :=
  <[hX := {[h]} ∪ default ∅ (hs !! hX)]> hs.

(** [hashXs[hashX].remove(tx_hash)], then [del hashXs[hashX]] when the set
    is left empty. *)
Definition hashXs_remove (hs : gmap hashX (gset string)) (hX : hashX) (h : string)
    : result (gmap hashX (gset string)) :=
  let s := default ∅ (hs !! hX) in
  if decide (h ∈ s) then
    let s' := s ∖ {[h]} in
    if decide (s' = ∅) then Ret (delete hX hs) else Ret (<[hX := s']> hs)
  else Raise KeyError.

(** The inner loop of [_accept_transactions] that finds the prevouts of
    one transaction; [None] stands for the [KeyError] that defers it. *)
Fixpoint find_prevouts (txs : gmap string MemPoolTx)
    (utxo_map : gmap (string * nat) (option (hashX * Z)))
    (pvs : list (string * nat)) : result (option (list (hashX * Z))) :=
  match pvs with
  | [] => Ret (Some [])
  | prevout :: rest =>
      utxo ←
        match mjoin (utxo_map !! prevout) with
        | Some utxo => Ret (Some utxo)
        | None =>
            let '(prev_hash, prev_index) := prevout in
            match txs !! prev_hash with
            | None => Ret None                       (* KeyError *)
            | Some prev =>
                match out_pairs prev !! prev_index with
                | Some utxo => Ret (Some utxo)
                | None => Raise IndexError
                end
            end
        end;
      match utxo with
      | None => Ret None
      | Some utxo =>
          found ← find_prevouts txs utxo_map rest;
          Ret (match found with Some ins => Some (utxo :: ins) | None => None end)
      end
  end.

(** The state threaded through [_accept_transactions] and
    [_process_mempool]. *)
Record pool := {
  p_txs : gmap string MemPoolTx;
  p_hashXs : gmap hashX (gset string);
  p_touched : gset hashX;
}.

(** The body of the loop of [_accept_transactions] for one transaction
    whose prevouts were all found. *)
Definition accept_one (p : pool) (hash : string) (tx : MemPoolTx)
    (ins : list (hashX * Z)) : pool :=
  let tx := {| prevouts := prevouts tx; in_pairs := Some ins;
               out_pairs := out_pairs tx;
               fee := Z.max 0 (sum_values ins - sum_values (out_pairs tx));
               size := size tx; raw_tx := raw_tx tx |} in
  let pairs := ins ++ out_pairs tx in
  {| p_txs := <[hash := tx]> (p_txs p);
     p_hashXs := foldl (λ hs pr, hashXs_add hs pr.1 hash) (p_hashXs p) pairs;
     p_touched := p_touched p ∪ pair_hashXs pairs |}.

(** [_accept_transactions]: the pool, the deferred transactions and the
    prevouts left unspent. *)
Fixpoint accept_loop (p : pool) (tx_map : list (string * MemPoolTx))
    (utxo_map : gmap (string * nat) (option (hashX * Z)))
    (unspent : gset (string * nat))
    : result (pool * list (string * MemPoolTx) * gset (string * nat)) :=
  match tx_map with
  | [] => Ret (p, [], unspent)
  | (hash, tx) :: rest =>
      found ← find_prevouts (p_txs p) utxo_map (prevouts tx);
      match found with
      | None =>
          '(p, deferred, unspent) ← accept_loop p rest utxo_map unspent;
          Ret (p, (hash, tx) :: deferred, unspent)
      | Some ins =>
          accept_loop (accept_one p hash tx ins) rest utxo_map
            (unspent ∖ list_to_set (prevouts tx))
      end
  end.

Definition _accept_transactions (p : pool) (tx_map : list (string * MemPoolTx))
    (utxo_map : gmap (string * nat) (option (hashX * Z)))
    : result (pool * list (string * MemPoolTx)
              * gmap (string * nat) (option (hashX * Z))) :=
  '(p, deferred, unspent) ← accept_loop p tx_map utxo_map (dom utxo_map);
  Ret (p, deferred, filter (λ kv, kv.1 ∈ unspent) utxo_map).

(** The body of the first loop of [_process_mempool]: a transaction that
    has disappeared is dropped from [txs] and from the set of each of its
    hashXs. *)
Definition remove_tx (p : pool) (tx_hash : string) : result pool :=
  tx ← of_option KeyError (p_txs p !! tx_hash);
  tx_hashXs ← of_option TypeError (tx_hashXs tx);
  hs ← for_each (λ hs hX, hashXs_remove hs hX tx_hash) (p_hashXs p)
         (elements tx_hashXs);
  Ret {| p_txs := delete tx_hash (p_txs p); p_hashXs := hs;
         p_touched := p_touched p ∪ tx_hashXs |}.

(** [util.chunks]: consecutive slices of [size] items. *)
Fixpoint chunks_upto {A} (fuel : nat) (items : list A) (size : nat) : list (list A) :=
  match fuel, items with
  | O, _ | _, [] => []
  | Datatypes.S fuel, _ => take size items :: chunks_upto fuel (drop size items) size
  end.

Definition chunks {A} (items : list A) (size : nat) : list (list A) :=
  chunks_upto (length items) items size.

(** [dict.update] on an insertion ordered dictionary. *)
Definition dict_update {K V} `{EqDecision K} (d new : list (K * V)) : list (K * V) :=
  foldl (λ d kv, dict_set d kv.1 kv.2) d new.

(** A transaction as the daemon returns it and the deserializer reads
    it: the prevouts of its inputs that are not generation-like, the
    (hashX, value) pairs of its outputs, its virtual size and its bytes. *)
Record fetched_tx := {
  f_prevouts : list (string * nat);
  f_out_pairs : list (hashX * Z);
  f_size : Z;
  f_raw : string;
}.

Section Refresh.
(** [daemon.getrawtransactions], one transaction at a time; [None] when
    the daemon has evicted it. *)
Variable getrawtransaction : string → option fetched_tx.
(** [db.lookup_utxos] *)
Variable lookup_utxos : list (string * nat) → list (option (hashX * Z)).
(** The order in which the fetches of [asyncio.as_completed] complete. *)
Variable completion_order : list (list string) → list (list string).

(** [_fetch_and_accept] *)
Definition _fetch_and_accept (p : pool) (hashes : list string)
    (all_hashes : gset string)
    : result (pool * list (string * MemPoolTx)
              * gmap (string * nat) (option (hashX * Z))) :=
  let tx_map :=
    foldl (λ tx_map hash,
             match getrawtransaction hash with
             | None => tx_map
             | Some f =>
                 dict_set tx_map hash
                   {| prevouts := f_prevouts f; in_pairs := None;
                      out_pairs := f_out_pairs f; fee := 0;
                      size := f_size f; raw_tx := f_raw f |}
             end) [] hashes in
  let pvs :=
    filter (λ prevout, prevout.1 ∉ all_hashes)
      (tx_map ≫= λ kv, prevouts kv.2) in
  let utxos := lookup_utxos pvs in
  let utxo_map :=
    foldl (λ m kv, <[kv.1 := kv.2]> m) ∅ (zip pvs utxos) in
  _accept_transactions p tx_map utxo_map.

(** The [while] loop of [_process_mempool]. *)
Fixpoint retry_loop (fuel : nat) (p : pool) (tx_map : list (string * MemPoolTx))
    (utxo_map : gmap (string * nat) (option (hashX * Z))) (prior_count : nat)
    : result (pool * list (string * MemPoolTx)) :=
  match fuel with
  | O => Ret (p, tx_map)
  | Datatypes.S fuel =>
      if bool_decide (tx_map ≠ []) && negb (bool_decide (length tx_map = prior_count))
      then
        '(p', tx_map', utxo_map') ← _accept_transactions p tx_map utxo_map;
        retry_loop fuel p' tx_map' utxo_map' (length tx_map)
      else Ret (p, tx_map)
  end.

(** [_process_mempool]: the maps it leaves, the touched set it returns and
    the transactions it drops. *)
Definition _process_mempool (mp : t) (all_hashes : gset string)
    : result (t * gset hashX * list (string * MemPoolTx)) :=
  let p := {| p_txs := txs mp; p_hashXs := hashXs mp; p_touched := ∅ |} in
  (* First handle txs that have disappeared *)
  p ← for_each remove_tx p (elements (dom (txs mp) ∖ all_hashes));
  (* Process new transactions *)
  let new_hashes := elements (all_hashes ∖ dom (p_txs p)) in
  '(p, dropped) ←
    (if bool_decide (new_hashes ≠ []) then
       '(p, tx_map, utxo_map) ←
         for_each (λ '(p, tx_map, utxo_map) hashes,
                     '(p, deferred, unspent) ← _fetch_and_accept p hashes all_hashes;
                     Ret (p, dict_update tx_map deferred, unspent ∪ utxo_map))
           (p, [], ∅) (completion_order (chunks new_hashes 200));
       retry_loop (Datatypes.S (length tx_map)) p tx_map utxo_map 0
     else Ret (p, []));
  Ret (set_pool mp (p_txs p) (p_hashXs p), p_touched p, dropped).
End Refresh.

(** [txs] and [hashXs] agree: every key of [hashXs] has a set that is not
    empty and holds keys of [txs] only, and every transaction of [txs] is in
    the set of a hashX exactly when the hashX occurs in its [in_pairs] or
    its [out_pairs]. *)
Definition consistent (txs : gmap string MemPoolTx)
    (hashXs : gmap hashX (gset string)) : Prop :=
  (∀ hX s, hashXs !! hX = Some s →
     s ≠ ∅ ∧ ∀ h, h ∈ s → is_Some (txs !! h)) ∧
  (∀ h tx, txs !! h = Some tx →
     ∃ hXs, tx_hashXs tx = Some hXs ∧
            ∀ hX, h ∈ default ∅ (hashXs !! hX) ↔ hX ∈ hXs).

(** *** The refresh keeps the maps consistent *)

(** A computation that returns a result satisfying [P], or raises
    [IndexError]. *)
Definition returns_or_index {A} (r : result A) (P : A → Prop) : Prop :=
  match r with
  | Ret a => P a
  | Raise e => e = IndexError
  end.

Lemma returns_bind {A B} (r : result A) (k : A → result B) P Q :
  returns_or_index r P → (∀ a, P a → returns_or_index (k a) Q) →
  returns_or_index (r ≫= k) Q.
Proof. destruct r as [a|e]; simpl; auto. Qed.

Lemma returns_impl {A} (r : result A) (P Q : A → Prop) :
  returns_or_index r P → (∀ a, P a → Q a) → returns_or_index r Q.
Proof. destruct r; simpl; auto. Qed.

(** A loop keeps an invariant that may speak of the items still to come. *)
Lemma for_each_returns {A B} (f : A → B → result A) (Inv : list B → A → Prop) l :
  ∀ a,
    Inv l a →
    (∀ a b rest, Inv (b :: rest) a → returns_or_index (f a b) (Inv rest)) →
    returns_or_index (for_each f a l) (Inv []).
Proof.
  induction l as [|b l IH]; intros a Hinv Hstep; simpl; [done|].
  eapply returns_bind; [by apply Hstep|]. intros a' Ha'. by apply IH.
Qed.

Definition mem (hs : gmap hashX (gset string)) (hX : hashX) (h : string) : Prop :=
  h ∈ default ∅ (hs !! hX).

Definition no_empty_set (hs : gmap hashX (gset string)) : Prop :=
  ∀ hX s, hs !! hX = Some s → s ≠ ∅.

Lemma hashXs_add_mem hs hX h hX' h' :
  mem (hashXs_add hs hX h) hX' h' ↔ mem hs hX' h' ∨ (hX' = hX ∧ h' = h).
Proof.
  unfold mem, hashXs_add. destruct (decide (hX = hX')) as [->|Hne].
  - rewrite lookup_insert_eq. simpl. set_solver.
  - rewrite lookup_insert_ne by done. naive_solver.
Qed.

Lemma hashXs_add_no_empty hs hX h :
  no_empty_set hs → no_empty_set (hashXs_add hs hX h).
Proof.
  intros Hne hX' s. unfold hashXs_add.
  destruct (decide (hX = hX')) as [->|Hne'].
  - rewrite lookup_insert_eq. intros [= <-]. set_solver.
  - rewrite lookup_insert_ne by done. apply Hne.
Qed.

Lemma hashXs_add_all hs (pairs : list (hashX * Z)) h :
  no_empty_set hs →
  no_empty_set (foldl (λ hs pr, hashXs_add hs pr.1 h) hs pairs) ∧
  ∀ hX' h', mem (foldl (λ hs pr, hashXs_add hs pr.1 h) hs pairs) hX' h'
            ↔ mem hs hX' h' ∨ (h' = h ∧ hX' ∈ pair_hashXs pairs).
Proof.
  revert hs. induction pairs as [|[hX v] pairs IH]; intros hs Hne; simpl.
  - split; [done|]. intros. unfold pair_hashXs. set_solver.
  - destruct (IH (hashXs_add hs hX h)) as [Hne' Hmem].
    { by apply hashXs_add_no_empty. }
    split; [done|]. intros hX' h'. rewrite Hmem, hashXs_add_mem.
    unfold pair_hashXs. simpl. set_solver.
Qed.

Lemma hashXs_remove_spec hs hX h :
  no_empty_set hs → mem hs hX h →
  ∃ hs', hashXs_remove hs hX h = Ret hs' ∧ no_empty_set hs' ∧
    ∀ hX' h', mem hs' hX' h' ↔ mem hs hX' h' ∧ ¬ (hX' = hX ∧ h' = h).
Proof.
  intros Hne Hmem. unfold hashXs_remove. unfold mem in Hmem.
  rewrite decide_True by done.
  destruct (decide (default ∅ (hs !! hX) ∖ {[h]} = ∅)) as [Hempty|Hnonempty].
  - eexists. split; [done|]. split.
    + intros hX' s. destruct (decide (hX = hX')) as [->|Hne'].
      * by rewrite lookup_delete_eq.
      * rewrite lookup_delete_ne by done. apply Hne.
    + intros hX' h'. unfold mem. destruct (decide (hX = hX')) as [->|Hne'].
      * rewrite lookup_delete_eq. simpl. set_solver.
      * rewrite lookup_delete_ne by done. naive_solver.
  - eexists. split; [done|]. split.
    + intros hX' s. destruct (decide (hX = hX')) as [->|Hne'].
      * rewrite lookup_insert_eq. by intros [= <-].
      * rewrite lookup_insert_ne by done. apply Hne.
    + intros hX' h'. unfold mem. destruct (decide (hX = hX')) as [->|Hne'].
      * rewrite lookup_insert_eq. simpl. set_solver.
      * rewrite lookup_insert_ne by done. naive_solver.
Qed.

Lemma hashXs_remove_all h (l : list hashX) : ∀ hs,
  NoDup l → no_empty_set hs → (∀ hX, hX ∈ l → mem hs hX h) →
  ∃ hs', for_each (λ hs hX, hashXs_remove hs hX h) hs l = Ret hs' ∧
    no_empty_set hs' ∧
    ∀ hX' h', mem hs' hX' h' ↔ mem hs hX' h' ∧ ¬ (h' = h ∧ hX' ∈ l).
Proof.
  induction l as [|hX l IH]; intros hs Hnd Hne Hall; simpl.
  - exists hs. split; [done|]. split; [done|]. set_solver.
  - apply NoDup_cons in Hnd as [Hnotin Hnd].
    destruct (hashXs_remove_spec hs hX h Hne) as (hs1 & -> & Hne1 & Hmem1).
    { apply Hall. left. }
    simpl. destruct (IH hs1 Hnd Hne1) as (hs2 & -> & Hne2 & Hmem2).
    { intros hX' Hin. apply Hmem1. split; [apply Hall; by right|].
      intros [-> _]. done. }
    exists hs2. split; [done|]. split; [done|].
    intros hX' h'. rewrite Hmem2, Hmem1. set_solver.
Qed.

Lemma pair_hashXs_app (l1 l2 : list (hashX * Z)) :
  pair_hashXs (l1 ++ l2) = pair_hashXs l1 ∪ pair_hashXs l2.
Proof. unfold pair_hashXs. rewrite fmap_app. apply list_to_set_app_L. Qed.

Lemma consistent_mem txs0 hashXs0 :
  consistent txs0 hashXs0 ↔
  no_empty_set hashXs0 ∧
  (∀ h tx, txs0 !! h = Some tx → is_Some (in_pairs tx)) ∧
  (∀ hX h, mem hashXs0 hX h ↔
     ∃ tx hXs, txs0 !! h = Some tx ∧ tx_hashXs tx = Some hXs ∧ hX ∈ hXs).
Proof.
  unfold consistent, no_empty_set, mem. split.
  - intros [H1 H2]. split; [|split].
    + intros hX s' Hs. by apply H1 in Hs as [? _].
    + intros h tx Htx. apply H2 in Htx as (hXs & HhXs & _).
      unfold tx_hashXs in HhXs. destruct (in_pairs tx); [eauto|done].
    + intros hX h. split.
      * intros Hin. destruct (hashXs0 !! hX) as [s'|] eqn:Hs; [|set_solver].
        simpl in Hin. destruct (H1 _ _ Hs) as [_ Hkeys].
        destruct (Hkeys h Hin) as [tx Htx].
        destruct (H2 _ _ Htx) as (hXs & HhXs & Hiff).
        exists tx, hXs. split; [done|]. split; [done|].
        apply Hiff. by rewrite Hs.
      * intros (tx & hXs & Htx & HhXs & Hin).
        destruct (H2 _ _ Htx) as (hXs' & HhXs' & Hiff). apply Hiff. congruence.
  - intros (Hne & Hins & Hmem). split.
    + intros hX s' Hs. split; [by eapply Hne|]. intros h Hin.
      destruct (Hmem hX h) as [Hto _]. rewrite Hs in Hto.
      destruct (Hto Hin) as (tx & _ & Htx & _). eauto.
    + intros h tx Htx. destruct (Hins _ _ Htx) as [ins Hin].
      eexists. split; [unfold tx_hashXs; by rewrite Hin|].
      intros hX. rewrite Hmem. split.
      * intros (tx' & hXs & Htx' & HhXs & HhX). rewrite Htx in Htx'.
        injection Htx' as <-. unfold tx_hashXs in HhXs. rewrite Hin in HhXs.
        by injection HhXs as <-.
      * intros HhX. eexists _, _. split; [done|]. split; [|done].
        unfold tx_hashXs. by rewrite Hin.
Qed.

(** An accepted transaction whose hash is new keeps the maps consistent. *)
Lemma accept_one_consistent p hash tx ins :
  consistent (p_txs p) (p_hashXs p) → p_txs p !! hash = None →
  consistent (p_txs (accept_one p hash tx ins)) (p_hashXs (accept_one p hash tx ins)).
Proof.
  rewrite !consistent_mem. intros (Hne & Hins & Hmem) Hfresh.
  unfold accept_one; simpl.
  destruct (hashXs_add_all (p_hashXs p) (ins ++ out_pairs tx) hash Hne)
    as [Hne' Hmem'].
  split; [done|]. split.
  - intros h tx'. destruct (decide (hash = h)) as [->|Hneq].
    + rewrite lookup_insert_eq. intros [= <-]. simpl. eauto.
    + rewrite lookup_insert_ne by done. apply Hins.
  - intros hX h. rewrite Hmem', Hmem. destruct (decide (hash = h)) as [->|Hneq].
    + rewrite lookup_insert_eq, Hfresh. split.
      * intros [(? & ? & [=] & _)|[_ Hin]].
        eexists _, _. split; [done|]. split; [reflexivity|].
        by rewrite <- pair_hashXs_app.
      * intros (tx' & hXs & [= <-] & [= <-] & Hin). right. split; [done|].
        by rewrite pair_hashXs_app.
    + rewrite lookup_insert_ne by done. naive_solver.
Qed.

Lemma find_prevouts_raises txs utxo_map pvs e :
  find_prevouts txs utxo_map pvs = Raise e → e = IndexError.
Proof.
  induction pvs as [|[prev_hash prev_index] rest IH]; simpl; [done|].
  destruct (mjoin (utxo_map !! (prev_hash, prev_index))) as [utxo|]; simpl.
  - destruct (find_prevouts txs utxo_map rest) as [found|e']; simpl; [done|].
    intros [= <-]. by apply IH.
  - destruct (txs !! prev_hash) as [prev|]; simpl; [|done].
    destruct (out_pairs prev !! prev_index) as [utxo|]; simpl;
      [|by intros [= <-]].
    destruct (find_prevouts txs utxo_map rest) as [found|e']; simpl; [done|].
    intros [= <-]. by apply IH.
Qed.

(** The transactions still to be tried have distinct hashes, none of them
    in [txs]. *)
Definition pending (p : pool) (tx_map : list (string * MemPoolTx)) : Prop :=
  consistent (p_txs p) (p_hashXs p) ∧ NoDup tx_map.*1 ∧
  ∀ h, h ∈ tx_map.*1 → p_txs p !! h = None.

Lemma accept_loop_pending tx_map : ∀ p utxo_map unspent,
  pending p tx_map →
  returns_or_index (accept_loop p tx_map utxo_map unspent)
    (λ '(p', deferred, _),
       pending p' deferred ∧ deferred.*1 ⊆ tx_map.*1 ∧
       ∀ h, is_Some (p_txs p' !! h) → is_Some (p_txs p !! h) ∨ h ∈ tx_map.*1).
Proof.
  induction tx_map as [|[hash tx] rest IH]; intros p um us (Hc & Hnd & Hfresh);
    simpl.
  - split; [done|]. split; [done|]. auto.
  - apply NoDup_cons in Hnd as [Hnotin Hnd].
    destruct (find_prevouts (p_txs p) um (prevouts tx)) as [[ins|]|e] eqn:Hfind;
      simpl.
    + eapply returns_impl.
      * apply IH. split; [|split; [done|]].
        -- apply accept_one_consistent; [done|]. apply Hfresh. left.
        -- intros h Hin. simpl.
           rewrite lookup_insert_ne by (intros Heq; by subst).
           apply Hfresh. by right.
      * intros [[p' deferred] us'] (Hp' & Hsub & Hdom). split; [done|].
        split; [set_solver|]. intros h Hh. apply Hdom in Hh as [Hh|Hh].
        -- simpl in Hh. destruct (decide (hash = h)) as [->|Hneq].
           ++ right. left.
           ++ rewrite lookup_insert_ne in Hh by done. by left.
        -- right. by right.
    + eapply returns_bind.
      * apply IH. split; [done|]. split; [done|]. intros h Hin.
        apply Hfresh. by right.
      * intros [[p' deferred] us'] ((Hc' & Hnd' & Hfresh') & Hsub & Hdom). simpl.
        split; [split; [done|split]|split].
        -- apply NoDup_cons. split; [set_solver|done].
        -- intros h [->|Hin]%elem_of_cons; [|by apply Hfresh'].
           destruct (p_txs p' !! hash) eqn:Hl; [|done].
           destruct (Hdom hash) as [[? Hh]|Hh]; [by eauto| |done].
           rewrite Hfresh in Hh; [done|left].
        -- set_solver.
        -- intros h Hh. apply Hdom in Hh as [Hh|Hh]; [by left|].
           right. by right.
    + by apply find_prevouts_raises in Hfind.
Qed.

Lemma accept_transactions_pending p tx_map utxo_map :
  pending p tx_map →
  returns_or_index (_accept_transactions p tx_map utxo_map)
    (λ '(p', deferred, _),
       pending p' deferred ∧ deferred.*1 ⊆ tx_map.*1 ∧
       ∀ h, is_Some (p_txs p' !! h) → is_Some (p_txs p !! h) ∨ h ∈ tx_map.*1).
Proof.
  intros Hp. unfold _accept_transactions. eapply returns_bind.
  - by apply accept_loop_pending.
  - by intros [[p' deferred] us'] H.
Qed.

Lemma retry_loop_consistent fuel : ∀ p tx_map utxo_map prior_count,
  pending p tx_map →
  returns_or_index (retry_loop fuel p tx_map utxo_map prior_count)
    (λ '(p', _), consistent (p_txs p') (p_hashXs p')).
Proof.
  induction fuel as [|fuel IH]; intros p tx_map um pc Hp; simpl.
  - apply Hp.
  - case_match; [|apply Hp]. eapply returns_bind.
    + by apply accept_transactions_pending.
    + intros [[p' deferred] um'] (Hp' & _). simpl. by apply IH.
Qed.

(** A transaction of [txs] is removed without an exception and the maps
    stay consistent. *)
Lemma remove_tx_consistent p tx_hash :
  consistent (p_txs p) (p_hashXs p) → is_Some (p_txs p !! tx_hash) →
  ∃ p', remove_tx p tx_hash = Ret p' ∧
        consistent (p_txs p') (p_hashXs p') ∧
        p_txs p' = delete tx_hash (p_txs p).
Proof.
  rewrite consistent_mem. intros (Hne & Hins & Hmem) [tx Htx].
  unfold remove_tx. rewrite Htx. simpl.
  destruct (Hins _ _ Htx) as [ins Hin]. unfold tx_hashXs at 1. rewrite Hin. simpl.
  set (hXs := pair_hashXs ins ∪ pair_hashXs (out_pairs tx)).
  assert (tx_hashXs tx = Some hXs) as HhXs by (unfold tx_hashXs; by rewrite Hin).
  destruct (hashXs_remove_all tx_hash (elements hXs) (p_hashXs p))
    as (hs' & -> & Hne' & Hmem'); [apply NoDup_elements|done| |].
  { intros hX HhX. apply elem_of_elements in HhX. apply Hmem. eauto. }
  simpl. eexists. split; [done|]. simpl. split; [|done].
  apply consistent_mem. split; [done|]. split.
  - intros h tx'. rewrite lookup_delete_Some. intros [_ ?]. eauto.
  - intros hX h. rewrite Hmem', Hmem, elem_of_elements.
    destruct (decide (tx_hash = h)) as [->|Hneq].
    + rewrite lookup_delete_eq. split; [|by intros (? & ? & [=] & _)].
      intros [(tx' & hXs' & Htx' & HhXs' & HhX) Hnot]. exfalso. apply Hnot.
      split; [done|]. congruence.
    + rewrite lookup_delete_ne by done. naive_solver.
Qed.

Lemma remove_all_consistent (l : list string) : ∀ p,
  NoDup l → consistent (p_txs p) (p_hashXs p) →
  (∀ h, h ∈ l → is_Some (p_txs p !! h)) →
  ∃ p', for_each remove_tx p l = Ret p' ∧ consistent (p_txs p') (p_hashXs p').
Proof.
  induction l as [|h l IH]; intros p Hnd Hc Hall; simpl; [eauto|].
  apply NoDup_cons in Hnd as [Hnotin Hnd].
  destruct (remove_tx_consistent p h Hc) as (p1 & -> & Hc1 & Htxs1).
  { apply Hall. left. }
  simpl. apply IH; [done|done|]. intros h' Hin. rewrite Htxs1.
  rewrite lookup_delete_ne by (intros ->; done). apply Hall. by right.
Qed.

Lemma concat_chunks_upto {A} n fuel : ∀ l : list A,
  (length l ≤ fuel)%nat → concat (chunks_upto fuel l (Datatypes.S n)) = l.
Proof.
  induction fuel as [|fuel IH]; intros l Hlen.
  - destruct l; [done|simpl in Hlen; lia].
  - destruct l as [|a l]; [done|]. cbn [chunks_upto concat].
    rewrite IH; [apply take_drop|]. rewrite length_drop. simpl in *. lia.
Qed.

Lemma concat_chunks {A} n (l : list A) : concat (chunks l (Datatypes.S n)) = l.
Proof. by apply concat_chunks_upto. Qed.

Lemma concat_Permutation {A} (ls ls' : list (list A)) :
  ls ≡ₚ ls' → concat ls ≡ₚ concat ls'.
Proof.
  induction 1 as [|x l l' _ IH|x y l|l l' l'' _ IH1 _ IH2]; simpl.
  - done.
  - by rewrite IH.
  - rewrite !app_assoc. f_equiv. apply Permutation_app_comm.
  - by etrans.
Qed.

Lemma dict_set_keys {K V} `{EqDecision K} (d : list (K * V)) k v k' :
  k' ∈ (dict_set d k v).*1 ↔ k' = k ∨ k' ∈ d.*1.
Proof.
  induction d as [|[k0 v0] d IH]; simpl.
  - set_solver.
  - destruct (decide (k0 = k)) as [->|Hne]; simpl; [set_solver|].
    rewrite !elem_of_cons, IH. naive_solver.
Qed.

Lemma dict_set_NoDup {K V} `{EqDecision K} (d : list (K * V)) k v :
  NoDup d.*1 → NoDup (dict_set d k v).*1.
Proof.
  induction d as [|[k0 v0] d IH]; simpl.
  - intros _. apply NoDup_singleton.
  - intros [Hnotin Hnd]%NoDup_cons.
    destruct (decide (k0 = k)) as [->|Hne]; simpl.
    + by apply NoDup_cons.
    + apply NoDup_cons. split; [|by apply IH].
      rewrite dict_set_keys. naive_solver.
Qed.

Lemma dict_update_keys {K V} `{EqDecision K} (new : list (K * V)) : ∀ d k',
  k' ∈ (dict_update d new).*1 ↔ k' ∈ d.*1 ∨ k' ∈ new.*1.
Proof.
  unfold dict_update. induction new as [|[k v] new IH]; intros d k'; simpl.
  - set_solver.
  - rewrite IH, dict_set_keys, elem_of_cons. naive_solver.
Qed.

Lemma dict_update_NoDup {K V} `{EqDecision K} (new : list (K * V)) : ∀ d,
  NoDup d.*1 → NoDup (dict_update d new).*1.
Proof.
  unfold dict_update. induction new as [|[k v] new IH]; intros d Hnd; simpl.
  - done.
  - apply IH. by apply dict_set_NoDup.
Qed.

Section RefreshFacts.
Variable getrawtransaction : string → option fetched_tx.
Variable lookup_utxos : list (string * nat) → list (option (hashX * Z)).
Variable completion_order : list (list string) → list (list string).
Hypothesis completion_order_perm : ∀ fetches, completion_order fetches ≡ₚ fetches.

(** The transactions a fetch hands to [_accept_transactions] have distinct
    hashes, all of them asked for. *)
Lemma fetched_tx_map_keys (hashes : list string) : ∀ acc,
  NoDup acc.*1 →
  let tx_map :=
    foldl (λ tx_map hash,
             match getrawtransaction hash with
             | None => tx_map
             | Some f =>
                 dict_set tx_map hash
                   {| prevouts := f_prevouts f; in_pairs := None;
                      out_pairs := f_out_pairs f; fee := 0;
                      size := f_size f; raw_tx := f_raw f |}
             end) acc hashes in
  NoDup tx_map.*1 ∧ ∀ h, h ∈ tx_map.*1 → h ∈ acc.*1 ∨ h ∈ hashes.
Proof.
  induction hashes as [|hash hashes IH]; intros acc Hnd; simpl.
  - split; [done|]. auto.
  - destruct (getrawtransaction hash) as [f|].
    + destruct (IH (dict_set acc hash
        {| prevouts := f_prevouts f; in_pairs := None;
           out_pairs := f_out_pairs f; fee := 0;
           size := f_size f; raw_tx := f_raw f |})) as [Hnd' Hin].
      { by apply dict_set_NoDup. }
      split; [done|]. intros h Hh. apply Hin in Hh as [Hh|Hh].
      * apply dict_set_keys in Hh as [->|Hh]; [right; left|by left].
      * right. by right.
    + destruct (IH acc Hnd) as [Hnd' Hin]. split; [done|].
      intros h Hh. apply Hin in Hh as [Hh|Hh]; [by left|right; by right].
Qed.

Lemma fetch_and_accept_pending p hashes all_hashes :
  consistent (p_txs p) (p_hashXs p) →
  (∀ h, h ∈ hashes → p_txs p !! h = None) →
  returns_or_index (_fetch_and_accept getrawtransaction lookup_utxos p hashes all_hashes)
    (λ '(p', deferred, _),
       pending p' deferred ∧ deferred.*1 ⊆ hashes ∧
       ∀ h, is_Some (p_txs p' !! h) → is_Some (p_txs p !! h) ∨ h ∈ hashes).
Proof.
  intros Hc Hfresh. unfold _fetch_and_accept.
  destruct (fetched_tx_map_keys hashes []) as [Hnd Hin]; [constructor|].
  cbv zeta in Hnd, Hin. eapply returns_impl.
  - apply accept_transactions_pending. split; [done|]. split; [done|].
    intros h Hh. apply Hfresh. apply Hin in Hh as [Hh|Hh]; [|done].
    by apply elem_of_nil in Hh.
  - intros [[p' deferred] um'] (Hp' & Hsub & Hdom). split; [done|]. split.
    + intros h Hh. apply Hsub, Hin in Hh as [Hh|Hh]; [|done].
      by apply elem_of_nil in Hh.
    + intros h Hh. apply Hdom in Hh as [Hh|Hh]; [by left|]. right.
      apply Hin in Hh as [Hh|Hh]; [|done]. by apply elem_of_nil in Hh.
Qed.

(** The invariant of the loop over the completed fetches. *)
Definition fetching (fetches : list (list string))
    (st : pool * list (string * MemPoolTx) * gmap (string * nat) (option (hashX * Z)))
    : Prop :=
  pending st.1.1 st.1.2 ∧ NoDup (concat fetches) ∧
  ∀ h, h ∈ concat fetches → p_txs st.1.1 !! h = None ∧ h ∉ st.1.2.*1.

Lemma fetch_loop_pending all_hashes fetches st :
  fetching fetches st →
  returns_or_index
    (for_each (λ '(p, tx_map, utxo_map) hashes,
                 '(p, deferred, unspent) ←
                   _fetch_and_accept getrawtransaction lookup_utxos p hashes all_hashes;
                 Ret (p, dict_update tx_map deferred, unspent ∪ utxo_map))
       st fetches)
    (fetching []).
Proof.
  intros Hst. apply (for_each_returns _ fetching); [done|].
  clear st Hst. intros [[p tx_map] um] hashes rest ((Hc & Hnd & Hnone) & Hcat & Hfresh).
  simpl in *. apply NoDup_app in Hcat as (Hnd1 & Hdisj & Hnd2).
  eapply returns_bind.
  - apply fetch_and_accept_pending; [done|]. intros h Hh.
    apply Hfresh. apply elem_of_app. by left.
  - intros [[p' deferred] unspent] ((Hc' & Hnd' & Hnone') & Hsub & Hdom). simpl.
    split; [split; [done|split]|split; [done|]]; simpl.
    + by apply dict_update_NoDup.
    + intros h [Hh|Hh]%dict_update_keys; [|by apply Hnone'].
      destruct (p_txs p' !! h) eqn:Hl; [|done].
      destruct (Hdom h) as [[? Hh']|Hh']; [by eauto| |].
      * by rewrite Hnone in Hh'.
      * destruct (Hfresh h) as [_ Hnot]; [apply elem_of_app; by left|done].
    + intros h Hh. destruct (Hfresh h) as [Hn Hnot]; [apply elem_of_app; by right|].
      split.
      * destruct (p_txs p' !! h) eqn:Hl; [|done].
        destruct (Hdom h) as [[? Hh']|Hh']; [by eauto| |].
        -- by rewrite Hn in Hh'.
        -- by apply Hdisj in Hh'.
      * intros [Hh'|Hh']%dict_update_keys; [done|].
        apply Hsub in Hh'. by apply Hdisj in Hh'.
Qed.

(** C10.  A refresh that starts with [txs] and [hashXs] consistent ends,
    unless a prevout index out of range raises [IndexError], with the two
    maps consistent again: no key of [hashXs] has an empty set (removing a
    disappeared transaction deletes the keys whose set it empties), every
    hash in a set is a key of [txs], and a transaction of [txs] is in the
    set of a hashX exactly when the hashX occurs in its [in_pairs] or
    [out_pairs]. *)
Theorem process_mempool_consistent mp all_hashes :
  consistent (txs mp) (hashXs mp) →
  returns_or_index
    (_process_mempool getrawtransaction lookup_utxos completion_order mp all_hashes)
    (λ '(mp', _, _), consistent (txs mp') (hashXs mp')).
Proof.
  intros Hc. unfold _process_mempool.
  destruct (remove_all_consistent (elements (dom (txs mp) ∖ all_hashes))
              {| p_txs := txs mp; p_hashXs := hashXs mp; p_touched := ∅ |})
    as (p1 & -> & Hc1); [apply NoDup_elements|done| |].
  { intros h Hh. apply elem_of_elements, elem_of_difference in Hh as [Hh _].
    simpl. by apply elem_of_dom. }
  simpl. set (new_hashes := elements (all_hashes ∖ dom (p_txs p1))).
  eapply returns_bind with (P := λ '(p, _), consistent (p_txs p) (p_hashXs p)).
  - case_bool_decide; [|done]. eapply returns_bind.
    + apply fetch_loop_pending. split; [|split].
      * split; [done|]. split; [constructor|]. by intros h Hh%elem_of_nil.
      * rewrite (concat_Permutation _ _ (completion_order_perm _)).
        rewrite (concat_chunks 199 new_hashes). apply NoDup_elements.
      * intros h. rewrite (concat_Permutation _ _ (completion_order_perm _)).
        rewrite (concat_chunks 199 new_hashes). intros Hh. simpl.
        apply elem_of_elements, elem_of_difference in Hh as [_ Hh].
        split; [by apply not_elem_of_dom|]. by intros ?%elem_of_nil.
    + intros [[p tx_map] um] (Hp & _).
      by apply (retry_loop_consistent (Datatypes.S (length tx_map))).
  - by intros [p dropped] Hp.
Qed.
End RefreshFacts.

(** The maps [__init__] makes are consistent. *)
Lemma init_consistent : consistent (txs init) (hashXs init).
Proof.
  split; simpl.
  - intros hX s'. by rewrite lookup_empty.
  - intros h tx. by rewrite lookup_empty.
Qed.

Lemma accept_loop_length tx_map : ∀ p utxo_map unspent p' deferred unspent',
  accept_loop p tx_map utxo_map unspent = Ret (p', deferred, unspent') →
  (length deferred ≤ length tx_map)%nat.
Proof.
  induction tx_map as [|[hash tx] rest IH]; intros p um us p' d us'; simpl.
  - intros [= <- <- <-]. done.
  - destruct (find_prevouts (p_txs p) um (prevouts tx)) as [[ins|]|e]; simpl;
      [| |done].
    + intros H. apply IH in H. lia.
    + destruct (accept_loop p rest um us) as [[[p1 d1] us1]|e] eqn:Hrest;
        simpl; [|done].
      intros [= <- <- <-]. apply IH in Hrest. simpl. lia.
Qed.

(** The [while] loop stops by its own test: more fuel than the number of
    transactions to try never changes the result. *)
Lemma retry_loop_fuel fuel : ∀ p tx_map utxo_map prior_count,
  (length tx_map < fuel)%nat →
  retry_loop (Datatypes.S fuel) p tx_map utxo_map prior_count
  = retry_loop fuel p tx_map utxo_map prior_count.
Proof.
  induction fuel as [|fuel IH]; intros p tx_map um pc Hlen; [lia|].
  cbn [retry_loop]. case_match; [|done].
  unfold _accept_transactions.
  destruct (accept_loop p tx_map um (dom um)) as [[[p1 d1] us1]|e] eqn:Hacc;
    simpl; [|done].
  apply accept_loop_length in Hacc.
  destruct (decide (length d1 = length tx_map)) as [Heq|Hneq].
  - destruct fuel as [|fuel']; cbn [retry_loop].
    + rewrite (bool_decide_eq_true_2 (length d1 = length tx_map)) by done.
      simpl. by rewrite andb_false_r.
    + rewrite (bool_decide_eq_true_2 (length d1 = length tx_map)) by done.
      simpl. by rewrite andb_false_r.
  - apply IH. lia.
Qed.

(** A daemon whose mempool holds one transaction [t1] that pays 50 to the
    hashX [x] and spends nothing. *)
Definition one_tx_daemon (h : string) : option fetched_tx :=
  if decide (h = "t1") then
    Some {| f_prevouts := []; f_out_pairs := [(Some "x", 50)];
            f_size := 100; f_raw := "raw" |}
  else None.

Lemma process_mempool_consistent_witness :
  returns_or_index
    (_process_mempool one_tx_daemon (λ pvs, (λ _, None) <$> pvs) id init {["t1"]})
    (λ '(mp', _, _), consistent (txs mp') (hashXs mp')).
Proof.
  apply (process_mempool_consistent one_tx_daemon (λ pvs, (λ _, None) <$> pvs) id).
  - intros fetches. reflexivity.
  - apply init_consistent.
Defined.

(** The refresh of the witness completes and enters [t1] under [x]. *)
Example process_mempool_one_tx :
  ∃ mp' touched,
    _process_mempool one_tx_daemon (λ pvs, (λ _, None) <$> pvs) id init {["t1"]}
    = Ret (mp', touched, []) ∧
    hashXs mp' !! Some "x" = Some {["t1"]} ∧ touched = {[Some "x"]} ∧
    (in_pairs <$> txs mp' !! "t1") = Some (Some []).
Proof. eexists _, _. split; [vm_compute; reflexivity|]. by vm_compute. Qed.

End MemPool.

(** ** The expiry pass: [_expire_claims] *)

Module Expiry.

(** A call [_abandon_claim(claim_hash, tx_num, nout, normalized_name)]. *)
Record abandon_call := {
  a_claim_hash : string;
  a_tx_num : Z;
  a_nout : Z;
  a_normalized_name : string;
}.

#[global] Instance abandon_call_eq_dec : EqDecision abandon_call.
Proof. solve_decision. Defined.

(** [normalized_name.startswith('@')] *)
Definition is_channel_name (normalized_name : string) : bool :=
  match normalized_name with
  | String "@" _ => true
  | _ => false
  end.

Definition call_of (entry : string * (Z * Z * string)) : abandon_call :=
  let '(claim_hash, (tx_num, nout, normalized_name)) := entry in
  {| a_claim_hash := claim_hash; a_tx_num := tx_num; a_nout := nout;
     a_normalized_name := normalized_name |}.

Section Pass.
(** The staging state of the block processor and a transaction input, as
    the two methods the pass calls see them. *)
Context {St TxInput : Type}.
(** [(tx_num, position) in self.txo_to_claim] *)
Variable txo_staged : St → Z * Z → bool.
(** [self.expired_claim_hashes.update(set(expired.keys()))] *)
Variable add_expired : St → list string → St.
(** [_spend_claim_txo(txi, spent_claims)]: the state it leaves and the
    entry [spent.claim_hash: (spent.tx_num, spent.position,
    spent.normalized_name)] it sets in [spent_claims], if the txo is a
    claim. *)
Variable _spend_claim_txo :
  St → TxInput → result (St * option (string * (Z * Z * string))).
(** [_abandon_claim] *)
Variable _abandon_claim : St → abandon_call → result St.

(** The first loop: the expired claims that are not staged in this block
    are spent. *)
Definition spend_expired (st : St)
    (expired : list (string * (Z * Z * string * TxInput)))
    : result (St * list (string * (Z * Z * string))) :=
  for_each
    (λ '(st, spent_claims) '(expired_claim_hash, (tx_num, position, name, txi)),
       if negb (txo_staged st (tx_num, position)) then
         '(st, entry) ← _spend_claim_txo st txi;
         Ret (st, match entry with
                  | Some (claim_hash, v) => dict_set spent_claims claim_hash v
                  | None => spent_claims
                  end)
       else Ret (st, spent_claims))
    (st, []) expired.

(** A call of [_abandon_claim], entered in the list of the calls made. *)
Definition abandon (acc : St * list abandon_call) (c : abandon_call)
    : result (St * list abandon_call) :=
  st ← _abandon_claim acc.1 c; Ret (st, acc.2 ++ [c]).

(** The second loop: every spent claim is abandoned, a claim that is not a
    channel a second time at once, a channel is put aside. *)
Definition abandon_spent (acc : St * list abandon_call)
    (spent_claims : list (string * (Z * Z * string)))
    : result (St * list abandon_call * list (string * (Z * Z * string))) :=
  for_each
    (λ '(acc, expired_channels) entry,
       acc ← abandon acc (call_of entry);
       if is_channel_name entry.2.2 then
         Ret (acc, dict_set expired_channels entry.1 entry.2)
       else
         acc ← abandon acc (call_of entry);
         Ret (acc, expired_channels))
    (acc, []) spent_claims.

(** [_expire_claims]: the state left and the calls of [_abandon_claim]
    made, in order. *)
Definition _expire_claims (st : St)
    (expired : list (string * (Z * Z * string * TxInput)))
    : result (St * list abandon_call) :=
  let st := add_expired st expired.*1 in
  '(st, spent_claims) ← spend_expired st expired;
  if bool_decide (expired ≠ []) then
    (* abandon the channels last to handle abandoned signed claims in the
       same tx *)
    '(acc, expired_channels) ← abandon_spent (st, []) spent_claims;
    for_each (λ acc entry, abandon acc (call_of entry)) acc expired_channels
  else Ret (st, []).

(** The calls of the second loop and of the third, written out. *)
Definition second_loop_calls (spent_claims : list (string * (Z * Z * string)))
    : list abandon_call :=
  spent_claims ≫= λ entry,
    if is_channel_name entry.2.2 then [call_of entry]
    else [call_of entry; call_of entry].

Definition third_loop_calls (spent_claims : list (string * (Z * Z * string)))
    : list abandon_call :=
  call_of <$> filter (λ entry, is_channel_name entry.2.2 = true) spent_claims.

Definition times (c : abandon_call) (calls : list abandon_call) : nat :=
  length (filter (λ c', c' = c) calls).

Lemma spend_expired_NoDup st expired st' spent_claims :
  spend_expired st expired = Ret (st', spent_claims) → NoDup spent_claims.*1.
Proof.
  unfold spend_expired.
  apply (for_each_Ret_inv _ (λ a, NoDup a.2.*1)); [|constructor].
  intros [st0 sc] [h [[[t p] nm] txi]] [st1 sc1] Hnd. simpl in *.
  destruct (txo_staged st0 (t, p)); simpl; [by intros [= <- <-]|].
  destruct (_spend_claim_txo st0 txi) as [[st2 [[h' v]|]]|]; simpl; [| |done].
  - intros [= <- <-]. by apply MemPool.dict_set_NoDup.
  - by intros [= <- <-].
Qed.

Lemma abandon_calls acc c acc' :
  abandon acc c = Ret acc' → acc'.2 = acc.2 ++ [c].
Proof.
  unfold abandon. destruct (_abandon_claim acc.1 c); simpl; [|done].
  by intros [= <-].
Qed.

Lemma abandon_spent_calls spent_claims : ∀ acc channels acc' channels',
  NoDup (channels.*1 ++ spent_claims.*1) →
  for_each
    (λ '(acc, expired_channels) entry,
       acc ← abandon acc (call_of entry);
       if is_channel_name entry.2.2 then
         Ret (acc, dict_set expired_channels entry.1 entry.2)
       else
         acc ← abandon acc (call_of entry);
         Ret (acc, expired_channels))
    (acc, channels) spent_claims = Ret (acc', channels') →
  acc'.2 = acc.2 ++ second_loop_calls spent_claims ∧
  channels' = channels
              ++ filter (λ entry, is_channel_name entry.2.2 = true) spent_claims.
Proof.
  induction spent_claims as [|e rest IH];
    intros acc channels acc' channels' Hnd; cbn [for_each].
  - intros [= <- <-]. by rewrite !app_nil_r.
  - unfold second_loop_calls. cbn [mbind list_bind]. rewrite filter_cons.
    fold (second_loop_calls rest).
    destruct (abandon acc (call_of e)) as [acc1|] eqn:H1; [|done].
    apply abandon_calls in H1. cbn [mbind result_bind].
    destruct (is_channel_name e.2.2) eqn:Hch.
    + rewrite decide_True by done. intros Hrest.
      rewrite dict_set_fresh in Hrest.
      2:{ apply NoDup_app in Hnd as (_ & Hdisj & _). intros Hin.
          apply (Hdisj e.1 Hin). left. }
      apply IH in Hrest as [-> ->].
      2:{ rewrite fmap_app, <- app_assoc. done. }
      rewrite H1, <- !app_assoc. by destruct e.
    + rewrite decide_False by done.
      destruct (abandon acc1 (call_of e)) as [acc2|] eqn:H2; [|done].
      apply abandon_calls in H2. intros Hrest.
      apply IH in Hrest as [-> ->].
      2:{ apply NoDup_app in Hnd as (Hnd1 & Hdisj & Hnd2).
          apply NoDup_cons in Hnd2 as [_ Hnd2]. apply NoDup_app.
          split; [done|]. split; [|done]. intros x Hx Hx'.
          apply (Hdisj x Hx). by right. }
      rewrite H2, H1, <- !app_assoc. done.
Qed.

Lemma abandon_each_calls (entries : list (string * (Z * Z * string))) :
  ∀ acc acc',
    for_each (λ acc entry, abandon acc (call_of entry)) acc entries = Ret acc' →
    acc'.2 = acc.2 ++ (call_of <$> entries).
Proof.
  induction entries as [|e entries IH]; intros acc acc'; simpl.
  - intros [= <-]. by rewrite app_nil_r.
  - destruct (abandon acc (call_of e)) as [acc1|] eqn:H1; simpl; [|done].
    apply abandon_calls in H1. intros Hrest. apply IH in Hrest as ->.
    by rewrite H1, <- app_assoc.
Qed.
End Pass.

Lemma times_app c l1 l2 : times c (l1 ++ l2) = (times c l1 + times c l2)%nat.
Proof. unfold times. by rewrite filter_app, length_app. Qed.

Lemma times_other_hash c calls :
  Forall (λ c', a_claim_hash c' ≠ a_claim_hash c) calls → times c calls = 0%nat.
Proof.
  unfold times. induction 1 as [|c' calls Hc' _ IH]; [done|].
  rewrite filter_cons, decide_False; [done|]. by intros ->.
Qed.

Lemma call_of_hash entry : a_claim_hash (call_of entry) = entry.1.
Proof. by destruct entry as [h [[t n] nm]]. Qed.

Lemma second_loop_other_hash spent_claims c :
  a_claim_hash c ∉ spent_claims.*1 →
  Forall (λ c', a_claim_hash c' ≠ a_claim_hash c) (second_loop_calls spent_claims).
Proof.
  intros Hnotin. unfold second_loop_calls. apply Forall_bind, Forall_forall.
  intros entry Hentry.
  assert (a_claim_hash (call_of entry) ≠ a_claim_hash c) as Hne.
  { rewrite call_of_hash. intros Heq. apply Hnotin. rewrite <- Heq.
    by apply list_elem_of_fmap_2. }
  unfold compose. destruct (is_channel_name entry.2.2); repeat constructor; done.
Qed.

Lemma third_loop_other_hash spent_claims c :
  a_claim_hash c ∉ spent_claims.*1 →
  Forall (λ c', a_claim_hash c' ≠ a_claim_hash c) (third_loop_calls spent_claims).
Proof.
  intros Hnotin. unfold third_loop_calls. apply Forall_fmap, Forall_forall.
  intros entry [_ Hentry]%list_elem_of_filter. simpl.
  rewrite call_of_hash. intros Heq. apply Hnotin. rewrite <- Heq.
  by apply list_elem_of_fmap_2.
Qed.

(** In a dictionary of spent claims every claim that is not a channel is
    abandoned twice by the second loop and not by the third, every channel
    once by each. *)
Lemma times_abandoned spent_claims entry :
  NoDup spent_claims.*1 → entry ∈ spent_claims →
  times (call_of entry) (second_loop_calls spent_claims)
  = (if is_channel_name entry.2.2 then 1 else 2)%nat ∧
  times (call_of entry) (third_loop_calls spent_claims)
  = (if is_channel_name entry.2.2 then 1 else 0)%nat.
Proof.
  induction spent_claims as [|e rest IH]; intros Hnd Hin.
  { by apply elem_of_nil in Hin. }
  simpl in Hnd. apply NoDup_cons in Hnd as [Hnotin Hnd].
  assert (second_loop_calls (e :: rest)
          = (if is_channel_name e.2.2 then [call_of e]
             else [call_of e; call_of e]) ++ second_loop_calls rest) as -> by done.
  assert (third_loop_calls (e :: rest)
          = (if is_channel_name e.2.2 then [call_of e] else [])
            ++ third_loop_calls rest) as ->.
  { unfold third_loop_calls. rewrite filter_cons.
    destruct (is_channel_name e.2.2); [by rewrite decide_True|].
    by rewrite decide_False. }
  rewrite !times_app.
  apply elem_of_cons in Hin as [->|Hin].
  - assert (a_claim_hash (call_of e) ∉ rest.*1) as Hnotin'
      by (by rewrite call_of_hash).
    rewrite (times_other_hash _ (second_loop_calls rest))
      by (by apply second_loop_other_hash).
    rewrite (times_other_hash _ (third_loop_calls rest))
      by (by apply third_loop_other_hash).
    destruct (is_channel_name e.2.2); unfold times;
      rewrite ?filter_cons, ?filter_nil, ?decide_True by done; done.
  - destruct (IH Hnd Hin) as [-> ->].
    assert (call_of e ≠ call_of entry) as Hcall.
    { intros Heq. apply Hnotin.
      rewrite <- (call_of_hash e), Heq, call_of_hash.
      by apply list_elem_of_fmap_2. }
    destruct (is_channel_name e.2.2); unfold times;
      rewrite ?filter_cons, ?filter_nil, ?decide_False by done; done.
Qed.

Section PassFacts.
Context {St TxInput : Type}.
Variable txo_staged : St → Z * Z → bool.
Variable add_expired : St → list string → St.
Variable _spend_claim_txo :
  St → TxInput → result (St * option (string * (Z * Z * string))).
Variable _abandon_claim : St → abandon_call → result St.

(** C7.  When the expiry pass completes, the calls of [_abandon_claim] it
    has made are those of the second loop followed by those of the third:
    every claim the first loop has recorded in [spent_claims] whose
    normalized name does not start with [@] is abandoned exactly twice by
    the second loop (once in the branch common to all, once in the branch
    of the claims that are not channels) and not again; every channel is
    abandoned once by the second loop and once more by the third, which
    abandons channels only and follows every call for a claim that is not
    a channel. *)
Theorem expire_abandons_twice st expired st' calls :
  _expire_claims txo_staged add_expired _spend_claim_txo _abandon_claim
    st expired = Ret (st', calls) →
  ∃ st1 spent_claims,
    spend_expired txo_staged _spend_claim_txo (add_expired st expired.*1) expired
    = Ret (st1, spent_claims) ∧
    calls = second_loop_calls spent_claims ++ third_loop_calls spent_claims ∧
    Forall (λ c, is_channel_name (a_normalized_name c) = true)
      (third_loop_calls spent_claims) ∧
    ∀ entry, entry ∈ spent_claims →
      times (call_of entry) (second_loop_calls spent_claims)
      = (if is_channel_name entry.2.2 then 1 else 2)%nat ∧
      times (call_of entry) (third_loop_calls spent_claims)
      = (if is_channel_name entry.2.2 then 1 else 0)%nat.
Proof.
  unfold _expire_claims.
  destruct (spend_expired _ _ _ expired) as [[st1 spent_claims]|] eqn:Hspend;
    simpl; [|done].
  intros Hrun. exists st1, spent_claims. split; [done|].
  pose proof (spend_expired_NoDup _ _ _ _ _ _ Hspend) as Hnd.
  split; [|split].
  - case_bool_decide as Hexp.
    + unfold abandon_spent in Hrun.
      destruct (for_each _ (st1, [], []) spent_claims)
        as [[acc channels]|] eqn:Hsecond; simpl in Hrun; [|done].
      apply abandon_spent_calls in Hsecond as [Hacc ->]; [|done].
      apply abandon_each_calls in Hrun. simpl in *.
      by rewrite Hrun, Hacc.
    + injection Hrun as <- <-.
      subst expired.
      simpl in Hspend. by injection Hspend as <- <-.
  - apply Forall_fmap, Forall_forall.
    intros [h [[t n] nm]] [Hch _]%list_elem_of_filter. done.
  - intros entry Hentry. by apply times_abandoned.
Qed.

(** The pass completes when the two methods it calls do. *)
Lemma expire_claims_returns st expired :
  (∀ st txi, ∃ r, _spend_claim_txo st txi = Ret r) →
  (∀ st c, ∃ st', _abandon_claim st c = Ret st') →
  ∃ r, _expire_claims txo_staged add_expired _spend_claim_txo _abandon_claim
         st expired = Ret r.
Proof.
  intros Hspend Habandon. unfold _expire_claims.
  assert (∀ acc c, ∃ acc', abandon _abandon_claim acc c = Ret acc') as Hab.
  { intros acc c. unfold abandon. destruct (Habandon acc.1 c) as [st' ->].
    simpl. eauto. }
  unfold spend_expired.
  match goal with
  | |- context [for_each ?f ?a0 expired] =>
      let H := fresh in
      assert (∀ a b, ∃ a', f a b = Ret a') as H;
        [|destruct (for_each_total f expired H a0) as [[st1 spent_claims] ->]]
  end.
  { intros [st0 sc] [h [[[t p] nm] txi]].
    destruct (txo_staged st0 (t, p)); simpl; [eauto|].
    destruct (Hspend st0 txi) as [[st2 entry] ->]. simpl. eauto. }
  simpl. case_bool_decide; [|eauto]. unfold abandon_spent.
  match goal with
  | |- context [for_each ?f ?a0 spent_claims] =>
      let H := fresh in
      assert (∀ a b, ∃ a', f a b = Ret a') as H;
        [|destruct (for_each_total f spent_claims H a0) as [[acc channels] ->]]
  end.
  { intros [acc0 ch0] entry. destruct (Hab acc0 (call_of entry)) as [acc1 ->].
    simpl. destruct (is_channel_name entry.2.2); [eauto|].
    destruct (Hab acc1 (call_of entry)) as [acc2 ->]. simpl. eauto. }
  simpl. apply for_each_total. intros acc0 entry. apply Hab.
Qed.
End PassFacts.

(** A channel [@chan] and a stream [hello] expire at the same height; the
    input that spends each names the claim it spends, no txo is staged and
    no call raises. *)
Definition two_expired : list (string * (Z * Z * string * (string * (Z * Z * string)))) :=
  [ ("ch", (2, 0, "@chan", ("ch", (2, 0, "@chan"))));
    ("c1", (1, 0, "hello", ("c1", (1, 0, "hello")))) ].

Definition run_two_expired : result (unit * list abandon_call) :=
  _expire_claims (λ _ _, false) (λ st _, st)
    (λ st txi, Ret (st, Some txi)) (λ st _, Ret st) tt two_expired.

(** The stream is abandoned twice in a row, the channel before it and
    again at the end. *)
Example two_expired_calls :
  run_two_expired
  = Ret (tt, [ {| a_claim_hash := "ch"; a_tx_num := 2; a_nout := 0;
                  a_normalized_name := "@chan" |};
               {| a_claim_hash := "c1"; a_tx_num := 1; a_nout := 0;
                  a_normalized_name := "hello" |};
               {| a_claim_hash := "c1"; a_tx_num := 1; a_nout := 0;
                  a_normalized_name := "hello" |};
               {| a_claim_hash := "ch"; a_tx_num := 2; a_nout := 0;
                  a_normalized_name := "@chan" |} ]).
Proof. reflexivity. Qed.

Lemma expire_abandons_twice_witness :
  ∃ st1 spent_claims,
    spend_expired (λ (_ : unit) _, false) (λ st txi, Ret (st, Some txi))
      tt two_expired = Ret (st1, spent_claims) ∧
    run_two_expired
    = Ret (tt, second_loop_calls spent_claims ++ third_loop_calls spent_claims).
Proof.
  destruct (expire_abandons_twice (λ _ _, false) (λ st _, st)
              (λ st txi, Ret (st, Some txi)) (λ st _, Ret st) tt two_expired
              tt _ two_expired_calls)
    as (st1 & spent_claims & Hspend & Hcalls & _).
  exists st1, spent_claims. split; [exact Hspend|].
  rewrite two_expired_calls. by rewrite Hcalls.
Defined.

End Expiry.

(** ** Activation delays and takeovers: [_get_takeover_ops] *)

Module Takeover.

Inductive txo_type :=
  | ACTIVATED_CLAIM_TXO_TYPE
  | ACTIVATED_SUPPORT_TXO_TYPE.

#[global] Instance txo_type_eq_dec : EqDecision txo_type.
Proof. solve_decision. Defined.

#[global] Instance txo_type_countable : Countable txo_type.
Proof.
  refine (inj_countable'
    (λ t, match t with
          | ACTIVATED_CLAIM_TXO_TYPE => true
          | ACTIVATED_SUPPORT_TXO_TYPE => false
          end)
    (λ b : bool, if b then ACTIVATED_CLAIM_TXO_TYPE
                 else ACTIVATED_SUPPORT_TXO_TYPE) _).
  by intros [].
Defined.

Record PendingActivationKey := {
  k_height : Z;
  k_txo_type : txo_type;
  k_tx_num : Z;
  k_position : Z;
}.

Definition is_support (k : PendingActivationKey) : bool :=
  bool_decide (k_txo_type k = ACTIVATED_SUPPORT_TXO_TYPE).

Definition is_claim (k : PendingActivationKey) : bool :=
  bool_decide (k_txo_type k = ACTIVATED_CLAIM_TXO_TYPE).

(** [PendingActivationValue(claim_hash, normalized_name)] *)
Abbreviation PendingActivationValue := (string * string)%type.

(** The value of a [claim_takeover] row: the controlling claim of a name
    and the height it took over at. *)
Record ClaimTakeoverValue := {
  ct_claim_hash : string;
  ct_height : Z;
}.

(** What [db.get_claim_txo] returns of a claim. *)
Record ClaimToTXOValue := {
  v_tx_num : Z;
  v_position : Z;
  v_root_tx_num : Z;
  v_root_position : Z;
  v_amount : Z;
  v_channel_signature_is_valid : bool;
  v_name : string;
  v_normalized_name : string;
}.

(** The fields of the block processor and the local variables of
    [_get_takeover_ops] that the code below only reads. *)
Record frame := {
  self_height : Z;
  tx_count : Z;
  txo_to_claim : gmap (Z * Z) Claims.StagedClaimtrieItem;
  claim_hash_to_txo : gmap string (Z * Z);
  abandoned_claims : gset string;
  activated_claim_amount_by_name_and_hash : gmap (string * string) Z;
  possible_future_claim_amount_by_name_and_hash : gmap (string * string) Z;
  activated_support_amount_by_claim : gmap string (list Z);
  possible_future_support_amounts_by_claim_hash : gmap string (list Z);
  removed_active_support_amount_by_claim : gmap string (list Z);
  names_with_abandoned_or_updated_controlling_claims : list string;
  future_activations :
    gmap string (list (string * (Z * PendingActivationValue * PendingActivationKey)));
  need_reactivate_if_takes_over : gmap (string * string) PendingActivationKey;
}.

(** Those it writes. *)
Record vars := {
  amount_cache : gmap (string * txo_type * Z) Z;
  controlling_claims : gmap string (option ClaimTakeoverValue);
  activated_at_height : gmap PendingActivationValue (list PendingActivationKey);
  activate_in_future : gmap (string * string) (list (PendingActivationKey * Z));
  possible_future_support_txos_by_claim_hash : gmap string (list (Z * Z));
  taken_over_names : gset string;
  touched_claim_hashes : gset string;
  op_stack : list RevertableOp;
}.

Definition with_amount_cache (v : vars) x : vars :=
  {| amount_cache := x; controlling_claims := controlling_claims v;
     activated_at_height := activated_at_height v;
     activate_in_future := activate_in_future v;
     possible_future_support_txos_by_claim_hash :=
       possible_future_support_txos_by_claim_hash v;
     taken_over_names := taken_over_names v;
     touched_claim_hashes := touched_claim_hashes v;
     op_stack := op_stack v |}.

Definition with_controlling_claims (v : vars) x : vars :=
  {| amount_cache := amount_cache v; controlling_claims := x;
     activated_at_height := activated_at_height v;
     activate_in_future := activate_in_future v;
     possible_future_support_txos_by_claim_hash :=
       possible_future_support_txos_by_claim_hash v;
     taken_over_names := taken_over_names v;
     touched_claim_hashes := touched_claim_hashes v;
     op_stack := op_stack v |}.

Definition with_activated_at_height (v : vars) x : vars :=
  {| amount_cache := amount_cache v; controlling_claims := controlling_claims v;
     activated_at_height := x;
     activate_in_future := activate_in_future v;
     possible_future_support_txos_by_claim_hash :=
       possible_future_support_txos_by_claim_hash v;
     taken_over_names := taken_over_names v;
     touched_claim_hashes := touched_claim_hashes v;
     op_stack := op_stack v |}.

Definition with_activate_in_future (v : vars) x : vars :=
  {| amount_cache := amount_cache v; controlling_claims := controlling_claims v;
     activated_at_height := activated_at_height v;
     activate_in_future := x;
     possible_future_support_txos_by_claim_hash :=
       possible_future_support_txos_by_claim_hash v;
     taken_over_names := taken_over_names v;
     touched_claim_hashes := touched_claim_hashes v;
     op_stack := op_stack v |}.

Definition with_possible_future_support_txos (v : vars) x : vars :=
  {| amount_cache := amount_cache v; controlling_claims := controlling_claims v;
     activated_at_height := activated_at_height v;
     activate_in_future := activate_in_future v;
     possible_future_support_txos_by_claim_hash := x;
     taken_over_names := taken_over_names v;
     touched_claim_hashes := touched_claim_hashes v;
     op_stack := op_stack v |}.

Definition with_takeover (v : vars) (name : string) (touched : gset string) : vars :=
  {| amount_cache := amount_cache v; controlling_claims := controlling_claims v;
     activated_at_height := activated_at_height v;
     activate_in_future := activate_in_future v;
     possible_future_support_txos_by_claim_hash :=
       possible_future_support_txos_by_claim_hash v;
     taken_over_names := {[name]} ∪ taken_over_names v;
     touched_claim_hashes := touched ∪ touched_claim_hashes v;
     op_stack := op_stack v |}.

Definition with_ops (v : vars) (ops : list RevertableOp) : vars :=
  {| amount_cache := amount_cache v; controlling_claims := controlling_claims v;
     activated_at_height := activated_at_height v;
     activate_in_future := activate_in_future v;
     possible_future_support_txos_by_claim_hash :=
       possible_future_support_txos_by_claim_hash v;
     taken_over_names := taken_over_names v;
     touched_claim_hashes := touched_claim_hashes v;
     op_stack := op_stack v ++ ops |}.

(** Code that reads and writes [vars] and may raise. *)
Definition M (A : Type) : Type := vars → result (A * vars).

#[global] Instance M_ret : MRet M := λ A a v, Ret (a, v).

#[global] Instance M_bind : MBind M := λ A B k m v,
  match m v with
  | Ret (a, v') => k a v'
  | Raise e => Raise e
  end.

Definition get {A} (f : vars → A) : M A := λ v, Ret (f v, v).
Definition modify (f : vars → vars) : M unit := λ v, Ret (tt, f v).
Definition raise {A} (e : exn) : M A := λ _, Raise e.
Definition stage (ops : list RevertableOp) : M unit :=
  modify (λ v, with_ops v ops).
Definition lift {A} (r : result A) : M A := λ v,
  match r with
  | Ret a => Ret (a, v)
  | Raise e => Raise e
  end.

Definition of_opt {A} (e : exn) (o : option A) : M A :=
  match o with
  | Some a => mret a
  | None => raise e
  end.

(** A list comprehension whose element expression runs in [M]. *)
Fixpoint for_list {A B} (f : A → M B) (l : list A) : M (list B) :=
  match l with
  | [] => mret []
  | a :: l => b ← f a; bs ← for_list f l; mret (b :: bs)
  end.

Definition sum (l : list Z) : Z := foldr Z.add 0 l.

(** [max(amounts, key=lambda x: amounts[x])]: the first key, in the order
    of the dictionary, whose amount no other exceeds; with its amount. *)
Fixpoint dict_argmax (amounts : list (string * Z)) : option (string * Z) :=
  match amounts with
  | [] => None
  | (k, a) :: rest =>
      match dict_argmax rest with
      | Some (k', a') => if a' >? a then Some (k', a') else Some (k, a)
      | None => Some (k, a)
      end
  end.

Definition opt_int (o : option Z) : atom :=
  match o with
  | Some z => AInt z
  | None => ANone
  end.

(** What the code reads of the database and of the coin. *)
Record Db := {
  (** the integers [ACTIVATED_CLAIM_TXO_TYPE] and
      [ACTIVATED_SUPPORT_TXO_TYPE] stand for in a row *)
  d_txo_type_code : txo_type → Z;
  d_get_controlling_claim : string → option ClaimTakeoverValue;
  d_get_claim_txo : string → option ClaimToTXOValue;
  d_get_activation : Z → Z → Z;
  d_get_claim_txo_amount : string → option Z;
  d_get_active_amount_as_of_height : string → Z → Z;
  d__get_active_amount : string → txo_type → Z → Z;
  (** [coin.get_delay_for_name] and [coin.maxTakeoverDelay] *)
  d_get_delay_for_name : Z → Z;
  d_maxTakeoverDelay : Z;
}.

Section Db.
Variable db : Db.
Let txo_type_code := d_txo_type_code db.
Let db_get_controlling_claim := d_get_controlling_claim db.
Let db_get_claim_txo := d_get_claim_txo db.
Let db_get_activation := d_get_activation db.
Let db_get_claim_txo_amount := d_get_claim_txo_amount db.
Let db_get_active_amount_as_of_height := d_get_active_amount_as_of_height db.
Let db__get_active_amount := d__get_active_amount db.
Let get_delay_for_name := d_get_delay_for_name db.
Let maxTakeoverDelay := d_maxTakeoverDelay db.

Variable fr : frame.

(** [get_activate_ops] *)
Definition get_activate_ops (t : txo_type) (claim_hash : string)
    (tx_num position activation_height : Z) (name : string) (amount : option Z)
    : list RevertableOp :=
  [ stage_put c_activated
      [AInt (txo_type_code t); AInt tx_num; AInt position]
      [AInt activation_height; ABytes claim_hash; AStr name];
    stage_put c_pending_activation
      [AInt activation_height; AInt (txo_type_code t); AInt tx_num; AInt position]
      [ABytes claim_hash; AStr name];
    stage_put c_active_amount
      [ABytes claim_hash; AInt (txo_type_code t); AInt activation_height;
       AInt tx_num; AInt position]
      [opt_int amount] ].

(** [get_remove_activate_ops] *)
Definition get_remove_activate_ops (t : txo_type) (claim_hash : string)
    (tx_num position activation_height : Z) (name : string) (amount : option Z)
    : list RevertableOp :=
  [ stage_delete c_activated
      [AInt (txo_type_code t); AInt tx_num; AInt position]
      [AInt activation_height; ABytes claim_hash; AStr name];
    stage_delete c_pending_activation
      [AInt activation_height; AInt (txo_type_code t); AInt tx_num; AInt position]
      [ABytes claim_hash; AStr name];
    stage_delete c_active_amount
      [ABytes claim_hash; AInt (txo_type_code t); AInt activation_height;
       AInt tx_num; AInt position]
      [opt_int amount] ].

(** [get_controlling], the closure of [_get_takeover_ops] that caches the
    controlling claims as of the previous block. *)
Definition get_controlling (name : string) : M (option ClaimTakeoverValue) :=
  cached ← get controlling_claims;
  match cached !! name with
  | None =>
      let controlling := db_get_controlling_claim name in
      modify (λ v, with_controlling_claims v (<[name := controlling]> cached));;
      mret controlling
  | Some controlling => mret controlling
  end.

(** [self.txo_to_claim[self.claim_hash_to_txo[claim_hash]]] *)
Definition staged_claim (claim_hash : string) : M Claims.StagedClaimtrieItem :=
  txo ← of_opt KeyError (claim_hash_to_txo fr !! claim_hash);
  of_opt KeyError (txo_to_claim fr !! txo).

(** [height or (self.height + 1)] *)
Definition height_or_next (height : option Z) : Z :=
  match height with
  | Some h => if decide (h = 0) then self_height fr + 1 else h
  | None => self_height fr + 1
  end.

(** [_cached_get_active_amount] *)
Definition _cached_get_active_amount (claim_hash : string) (t : txo_type)
    (height : Z) : M Z :=
  cache ← get amount_cache;
  match cache !! (claim_hash, t, height) with
  | Some amount => mret amount
  | None =>
      amount ←
        match t with
        | ACTIVATED_CLAIM_TXO_TYPE =>
            if decide (is_Some (claim_hash_to_txo fr !! claim_hash)) then
              c ← staged_claim claim_hash; mret (Claims.amount c)
            else mret (db_get_active_amount_as_of_height claim_hash height)
        | ACTIVATED_SUPPORT_TXO_TYPE =>
            mret (db__get_active_amount claim_hash t height)
        end;
      cache ← get amount_cache;
      modify (λ v, with_amount_cache v (<[(claim_hash, t, height) := amount]> cache));;
      mret amount
  end.

(** [_get_pending_claim_amount] *)
Definition _get_pending_claim_amount (name claim_hash : string)
    (height : option Z) : M Z :=
  match activated_claim_amount_by_name_and_hash fr !! (name, claim_hash) with
  | Some activated =>
      if decide (is_Some (claim_hash_to_txo fr !! claim_hash)) then
        c ← staged_claim claim_hash; mret (Claims.amount c)
      else mret activated
  | None =>
      match possible_future_claim_amount_by_name_and_hash fr !! (name, claim_hash) with
      | Some future => mret future
      | None =>
          _cached_get_active_amount claim_hash ACTIVATED_CLAIM_TXO_TYPE
            (height_or_next height)
      end
  end.

(** [_get_pending_supported_amount] *)
Definition _get_pending_supported_amount (claim_hash : string)
    (height : option Z) : M Z :=
  amount ← _cached_get_active_amount claim_hash ACTIVATED_SUPPORT_TXO_TYPE
             (height_or_next height);
  let amount :=
    amount + from_option sum 0 (activated_support_amount_by_claim fr !! claim_hash) in
  let amount :=
    amount + from_option sum 0
               (possible_future_support_amounts_by_claim_hash fr !! claim_hash) in
  mret (amount - from_option sum 0
                   (removed_active_support_amount_by_claim fr !! claim_hash)).

(** [_get_pending_effective_amount] *)
Definition _get_pending_effective_amount (name claim_hash : string)
    (height : option Z) : M Z :=
  claim_amount ← _get_pending_claim_amount name claim_hash height;
  support_amount ← _get_pending_supported_amount claim_hash height;
  mret (claim_amount + support_amount).

(** The delay [get_delayed_activate_ops] computes before it stages
    anything. *)
Definition activation_delay (height : Z) (name claim_hash : string)
    (is_new_claim : bool) : M Z :=
  controlling ← get_controlling name;
  match controlling with
  | None => mret 0                                (* nothing_is_controlling *)
  | Some controlling =>
      let staged_is_controlling :=
        bool_decide (claim_hash = ct_claim_hash controlling) in
      let controlling_is_abandoned :=
        bool_decide (name ∈ names_with_abandoned_or_updated_controlling_claims fr) in
      if staged_is_controlling || controlling_is_abandoned then mret 0
      else if is_new_claim then
        mret (get_delay_for_name (height - ct_height controlling))
      else
        controlling_effective_amount ←
          _get_pending_effective_amount name (ct_claim_hash controlling) None;
        staged_effective_amount ←
          _get_pending_effective_amount name claim_hash None;
        let staged_update_could_cause_takeover :=
          staged_effective_amount >? controlling_effective_amount in
        mret (if negb staged_update_could_cause_takeover then 0
              else get_delay_for_name (height - ct_height controlling))
  end.

Definition txo_type_of (is_support : bool) : txo_type :=
  if is_support then ACTIVATED_SUPPORT_TXO_TYPE else ACTIVATED_CLAIM_TXO_TYPE.

(** [get_delayed_activate_ops], the closure of [_get_takeover_ops] *)
Definition get_delayed_activate_ops (height : Z) (name claim_hash : string)
    (is_new_claim : bool) (tx_num nout amount : Z) (is_support : bool) : M unit :=
  delay ← activation_delay height name claim_hash is_new_claim;
  (if decide (delay = 0) then
     (* if delay was 0 it needs to be considered for takeovers *)
     modify (λ v, with_activated_at_height v
       (<[(claim_hash, name) :=
            default [] (activated_at_height v !! (claim_hash, name))
            ++ [ {| k_height := height; k_txo_type := txo_type_of is_support;
                    k_tx_num := tx_num; k_position := nout |} ]]>
          (activated_at_height v)))
   else
     (* if the delay was higher it still needs to be considered if
        something else triggers a takeover *)
     modify (λ v, with_activate_in_future v
       (<[(name, claim_hash) :=
            default [] (activate_in_future v !! (name, claim_hash))
            ++ [ ({| k_height := height + delay;
                     k_txo_type := txo_type_of is_support;
                     k_tx_num := tx_num; k_position := nout |}, amount) ]]>
          (activate_in_future v)));;
     if is_support then
       modify (λ v, with_possible_future_support_txos v
         (<[claim_hash :=
              default [] (possible_future_support_txos_by_claim_hash v !! claim_hash)
              ++ [(tx_num, nout)]]>
            (possible_future_support_txos_by_claim_hash v)))
     else mret tt);;
  stage (get_activate_ops (txo_type_of is_support) claim_hash tx_num nout
           (height + delay) name (Some amount)).

(** *** One name of the loop that processes takeovers *)

(** [amounts]: the pending effective amount of every activated claim
    that is not abandoned, then that of the controlling claim. *)
Definition takeover_amounts (name : string)
    (controlling : option ClaimTakeoverValue)
    (activated : list (string * list (PendingActivationKey * Z)))
    : M (list (string * Z)) :=
  amounts ←
    for_list (λ claim_hash,
                amount ← _get_pending_effective_amount name claim_hash None;
                mret (claim_hash, amount))
      (filter (λ claim_hash, claim_hash ∉ abandoned_claims fr) activated.*1);
  (* if there is a controlling claim include it in the amounts to ensure
     it remains the max *)
  match controlling with
  | Some controlling =>
      if decide (ct_claim_hash controlling ∉ abandoned_claims fr) then
        amount ← _get_pending_effective_amount name (ct_claim_hash controlling) None;
        mret (dict_set amounts (ct_claim_hash controlling) amount)
      else mret amounts
  | None => mret amounts
  end.

(** The test of the [if] that guards a takeover; [amounts[...]] of the
    controlling claim is only read when the tests before it fail. *)
Definition takeover_test (name : string) (controlling : option ClaimTakeoverValue)
    (amounts : list (string * Z)) (winning_claim_hash : string) : M bool :=
  match controlling with
  | None => mret true
  | Some controlling =>
      if bool_decide (winning_claim_hash ≠ ct_claim_hash controlling)
         && bool_decide (name ∈ names_with_abandoned_or_updated_controlling_claims fr)
      then mret true
      else if bool_decide (winning_claim_hash ≠ ct_claim_hash controlling) then
        winning_amount ← of_opt KeyError (dict_get amounts winning_claim_hash);
        controlling_amount ←
          of_opt KeyError (dict_get amounts (ct_claim_hash controlling));
        mret (winning_amount >? controlling_amount)
      else mret false
  end.

(** [amounts_with_future_activations] *)
Definition future_amounts (name : string) (amounts : list (string * Z))
    : M (list (string * Z)) :=
  future ←
    for_list (λ claim_hash,
                amount ← _get_pending_effective_amount name claim_hash
                           (Some (self_height fr + 1 + maxTakeoverDelay));
                mret (claim_hash, amount))
      (default [] (future_activations fr !! name)).*1;
  mret (MemPool.dict_update amounts future).

(** The rewrite of the takeover row of a name. *)
Definition takeover_ops (height : Z) (name : string)
    (controlling : option ClaimTakeoverValue) (new_holder : string)
    : list RevertableOp :=
  match controlling with
  | Some controlling =>
      [ stage_delete c_claim_takeover [AStr name]
          [ABytes (ct_claim_hash controlling); AInt (ct_height controlling)] ]
  | None => []
  end
  ++ [ stage_put c_claim_takeover [AStr name] [ABytes new_holder; AInt height] ].

Definition touched_by_takeover (controlling : option ClaimTakeoverValue)
    (new_holder : string) : gset string :=
  {[new_holder]} ∪
  match controlling with
  | Some controlling =>
      if decide (ct_claim_hash controlling ∉ abandoned_claims fr)
      then {[ct_claim_hash controlling]} else ∅
  | None => ∅
  end.

(** Where the claim that activates early is and when it was to activate. *)
Definition early_claim_txo (v : vars) (name winner : string)
    : result (Z * Z * Z * Z) :=
  match claim_hash_to_txo fr !! winner with
  | None =>
      match db_get_claim_txo winner with
      | None => Raise AttributeError
      | Some claim =>
          Ret (v_tx_num claim, v_position claim, v_amount claim,
               db_get_activation (v_tx_num claim) (v_position claim))
      end
  | Some (tx_num, position) =>
      match txo_to_claim fr !! (tx_num, position) with
      | None => Raise KeyError
      | Some staged =>
          let same_txo (k : PendingActivationKey) :=
            bool_decide ((k_tx_num k, k_position k) = (tx_num, position)) in
          let activation :=
            match list_find (λ ka, same_txo ka.1 = true)
                    (default [] (activate_in_future v !! (name, winner))) with
            | Some (_, (k, _)) => Some (k_height k)
            | None =>
                (* TODO: reproduce this in an integration test (block 604718) *)
                match list_find (λ k, same_txo k = true)
                        (default [] (activated_at_height v !! (winner, name))) with
                | Some (_, k) => Some (k_height k)
                | None => None
                end
            end in
          match activation with
          | None => Raise AssertionError
          | Some activation =>
              Ret (tx_num, position, Claims.amount staged, activation)
          end
      end
  end.

(** The supports of the early winner delayed in this block are activated
    with it. *)
Definition early_support_ops (v : vars) (height : Z) (name winner : string)
    : list RevertableOp :=
  default [] (activate_in_future v !! (name, winner)) ≫= λ '(k, amount),
    if bool_decide ((k_tx_num k, k_position k)
                    ∈ default [] (possible_future_support_txos_by_claim_hash v !! winner))
    then
      get_remove_activate_ops ACTIVATED_SUPPORT_TXO_TYPE winner (k_tx_num k)
        (k_position k) (k_height k) name (Some amount)
      ++ get_activate_ops ACTIVATED_SUPPORT_TXO_TYPE winner (k_tx_num k)
           (k_position k) height name (Some amount)
    else [].

(** A takeover by a claim that was to activate later. *)
Definition early_takeover (height : Z) (name : string)
    (controlling : option ClaimTakeoverValue) (winner : string) : M unit :=
  v ← get id;
  '(tx_num, position, amount, activation) ←
    lift (early_claim_txo v name winner);
  (* update the claim that's activating early *)
  stage (get_remove_activate_ops ACTIVATED_CLAIM_TXO_TYPE winner tx_num position
           activation name (Some amount));;
  stage (get_activate_ops ACTIVATED_CLAIM_TXO_TYPE winner tx_num position
           height name (Some amount));;
  stage (early_support_ops v height name winner);;
  modify (λ v, with_takeover v name (touched_by_takeover controlling winner));;
  stage (takeover_ops height name controlling winner).

(** A takeover by the winner among the activated claims. *)
Definition plain_takeover (height : Z) (name : string)
    (controlling : option ClaimTakeoverValue) (winner : string) : M unit :=
  match need_reactivate_if_takes_over fr !! (name, winner) with
  | Some previous_pending_activate =>
      '(tx_num, position, amount) ←
        match claim_hash_to_txo fr !! winner with
        | Some (tx_num, position) =>
            staged ← of_opt KeyError (txo_to_claim fr !! (tx_num, position));
            mret (tx_num, position, Some (Claims.amount staged))
        | None =>
            mret (k_tx_num previous_pending_activate,
                  k_position previous_pending_activate,
                  db_get_claim_txo_amount winner)
        end;
      if decide (k_height previous_pending_activate > height) then
        (* the claim had a pending activation in the future, move it to now *)
        (if decide (tx_num < tx_count fr) then
           stage (get_remove_activate_ops ACTIVATED_CLAIM_TXO_TYPE winner tx_num
                    position (k_height previous_pending_activate) name amount)
         else mret tt);;
        stage (get_activate_ops ACTIVATED_CLAIM_TXO_TYPE winner tx_num position
                 height name amount)
      else mret tt
  | None => mret tt
  end;;
  modify (λ v, with_takeover v name (touched_by_takeover controlling winner));;
  stage (takeover_ops height name controlling winner).

(** The body of the loop [for name, activated in
    self.activation_by_claim_by_name.items()]. *)
Definition process_takeover (height : Z) (name : string)
    (activated : list (string * list (PendingActivationKey * Z))) : M unit :=
  cached ← get controlling_claims;
  controlling ← of_opt KeyError (cached !! name);
  amounts ← takeover_amounts name controlling activated;
  '(winning_claim_hash, winning_amount) ← of_opt ValueError (dict_argmax amounts);
  takeover ← takeover_test name controlling amounts winning_claim_hash;
  if (takeover : bool) then
    amounts_with_future_activations ← future_amounts name amounts;
    '(winning_including_future_activations, future_winning_amount) ←
      of_opt ValueError (dict_argmax amounts_with_future_activations);
    if bool_decide (winning_claim_hash ≠ winning_including_future_activations)
       && (future_winning_amount >? winning_amount)
    then early_takeover height name controlling winning_including_future_activations
    else plain_takeover height name controlling winning_claim_hash
  else mret tt.

(** *** The amounts without the cache

    [amount_cache] is cleared after every block and only filled by
    [_cached_get_active_amount]; the amounts below are what the code
    computes when the cache has no entry for them. *)

Definition staged_amount (claim_hash : string) : option Z :=
  txo ← claim_hash_to_txo fr !! claim_hash;
  c ← txo_to_claim fr !! txo;
  Some (Claims.amount c).

Definition active_amount (claim_hash : string) (t : txo_type) (height : Z)
    : option Z :=
  match t with
  | ACTIVATED_CLAIM_TXO_TYPE =>
      if decide (is_Some (claim_hash_to_txo fr !! claim_hash))
      then staged_amount claim_hash
      else Some (db_get_active_amount_as_of_height claim_hash height)
  | ACTIVATED_SUPPORT_TXO_TYPE => Some (db__get_active_amount claim_hash t height)
  end.

Definition pending_claim_amount (name claim_hash : string) (height : option Z)
    : option Z :=
  match activated_claim_amount_by_name_and_hash fr !! (name, claim_hash) with
  | Some activated =>
      if decide (is_Some (claim_hash_to_txo fr !! claim_hash))
      then staged_amount claim_hash else Some activated
  | None =>
      match possible_future_claim_amount_by_name_and_hash fr !! (name, claim_hash) with
      | Some future => Some future
      | None => active_amount claim_hash ACTIVATED_CLAIM_TXO_TYPE (height_or_next height)
      end
  end.

Definition pending_supported_amount (claim_hash : string) (height : option Z)
    : option Z :=
  amount ← active_amount claim_hash ACTIVATED_SUPPORT_TXO_TYPE (height_or_next height);
  Some (amount
        + from_option sum 0 (activated_support_amount_by_claim fr !! claim_hash)
        + from_option sum 0 (possible_future_support_amounts_by_claim_hash fr !! claim_hash)
        - from_option sum 0 (removed_active_support_amount_by_claim fr !! claim_hash)).

(** The pending effective amount of a claim: its amount plus its active
    supports, the values pending in this block first. *)
Definition pending_effective_amount (name claim_hash : string)
    (height : option Z) : option Z :=
  claim_amount ← pending_claim_amount name claim_hash height;
  support_amount ← pending_supported_amount claim_hash height;
  Some (claim_amount + support_amount).

(** Every entry of the cache is the amount the code would compute. *)
Definition coherent (v : vars) : Prop :=
  ∀ claim_hash t height amount,
    amount_cache v !! (claim_hash, t, height) = Some amount →
    active_amount claim_hash t height = Some amount.

(** [m] run from [v] returns [o] and changes the cache at most, keeping
    it coherent; it raises [KeyError] when [o] is [None]. *)
Definition computes {A} (m : M A) (v : vars) (o : option A) : Prop :=
  match m v with
  | Ret (a, v') =>
      o = Some a ∧ coherent v' ∧ v' = with_amount_cache v (amount_cache v')
  | Raise e => o = None ∧ e = KeyError
  end.

Lemma with_amount_cache_id v : v = with_amount_cache v (amount_cache v).
Proof. by destruct v. Qed.

Lemma with_amount_cache_twice v c1 c2 :
  with_amount_cache (with_amount_cache v c1) c2 = with_amount_cache v c2.
Proof. done. Qed.

Lemma computes_ret {A} (a : A) v : coherent v → computes (mret a) v (Some a).
Proof. intros Hc. split; [done|]. split; [done|]. apply with_amount_cache_id. Qed.

Lemma computes_bind {A B} (m : M A) (k : A → M B) v (o : option A) (f : A → option B) :
  computes m v o →
  (∀ a v', o = Some a → coherent v' → v' = with_amount_cache v (amount_cache v') →
           computes (k a) v' (f a)) →
  computes (m ≫= k) v (o ≫= f).
Proof.
  unfold computes at 1 3. unfold mbind at 1, M_bind.
  destruct (m v) as [[a v']|e].
  - intros (-> & Hc & Hv) Hk. simpl. specialize (Hk a v' eq_refl Hc Hv).
    unfold computes in Hk. destruct (k a v') as [[b v'']|e]; [|done].
    destruct Hk as (-> & Hc' & Hv'). split; [done|]. split; [done|].
    rewrite Hv' at 1. rewrite Hv. done.
  - intros [-> ->] _. done.
Qed.

Lemma staged_claim_run claim_hash v :
  (c ← staged_claim claim_hash; mret (Claims.amount c)) v
  = match staged_amount claim_hash with
    | Some amount => Ret (amount, v)
    | None => Raise KeyError
    end.
Proof.
  unfold staged_claim, staged_amount. unfold mbind at 1 2, M_bind, of_opt.
  destruct (claim_hash_to_txo fr !! claim_hash) as [txo|]; simpl; [|done].
  by destruct (txo_to_claim fr !! txo) as [c|].
Qed.

Lemma staged_claim_computes claim_hash v :
  coherent v →
  computes (c ← staged_claim claim_hash; mret (Claims.amount c)) v
    (staged_amount claim_hash).
Proof.
  intros Hc. unfold computes. rewrite staged_claim_run.
  destruct (staged_amount claim_hash); [|done].
  split; [done|]. split; [done|]. apply with_amount_cache_id.
Qed.

Lemma cached_get_computes claim_hash t height v :
  coherent v →
  computes (_cached_get_active_amount claim_hash t height) v
    (active_amount claim_hash t height).
Proof.
  intros Hc. unfold computes, _cached_get_active_amount.
  unfold mbind at 1, M_bind, get. simpl.
  destruct (amount_cache v !! (claim_hash, t, height)) as [amount|] eqn:Hcache.
  - simpl. split; [by rewrite (Hc _ _ _ _ Hcache)|]. split; [done|].
    apply with_amount_cache_id.
  - assert (∀ amount, active_amount claim_hash t height = Some amount →
        coherent (with_amount_cache v
                    (<[(claim_hash, t, height) := amount]> (amount_cache v)))) as Hins.
    { intros amount Ham h' t' height' a'. simpl.
      destruct (decide ((claim_hash, t, height) = (h', t', height'))) as [[= <- <- <-]|Hne].
      - rewrite lookup_insert_eq. by intros [= <-].
      - rewrite lookup_insert_ne by done. apply Hc. }
    unfold active_amount in *. destruct t.
    + destruct (decide (is_Some (claim_hash_to_txo fr !! claim_hash))) as [Hs|Hn].
      * unfold mbind at 1, M_bind. rewrite staged_claim_run.
        destruct (staged_amount claim_hash) as [a|]; [|done].
        unfold mbind, M_bind, get, modify. simpl. split; [done|].
        split; [|done]. by apply Hins.
      * unfold mbind, M_bind, get, modify. simpl. split; [done|].
        split; [|done]. by apply Hins.
    + unfold mbind, M_bind, get, modify. simpl. split; [done|].
      split; [|done]. by apply Hins.
Qed.

Lemma pending_claim_amount_computes name claim_hash height v :
  coherent v →
  computes (_get_pending_claim_amount name claim_hash height) v
    (pending_claim_amount name claim_hash height).
Proof.
  intros Hc. unfold _get_pending_claim_amount, pending_claim_amount.
  destruct (activated_claim_amount_by_name_and_hash fr !! (name, claim_hash)).
  - case_decide; [by apply staged_claim_computes|by apply computes_ret].
  - destruct (possible_future_claim_amount_by_name_and_hash fr !! (name, claim_hash)).
    + by apply computes_ret.
    + by apply cached_get_computes.
Qed.

Lemma pending_supported_amount_computes claim_hash height v :
  coherent v →
  computes (_get_pending_supported_amount claim_hash height) v
    (pending_supported_amount claim_hash height).
Proof.
  intros Hc. unfold _get_pending_supported_amount, pending_supported_amount.
  eapply computes_bind; [by apply cached_get_computes|].
  intros a v' _ Hc' _. by apply computes_ret.
Qed.

Lemma pending_effective_amount_computes name claim_hash height v :
  coherent v →
  computes (_get_pending_effective_amount name claim_hash height) v
    (pending_effective_amount name claim_hash height).
Proof.
  intros Hc. unfold _get_pending_effective_amount, pending_effective_amount.
  eapply computes_bind; [by apply pending_claim_amount_computes|].
  intros a v' _ Hc' _.
  eapply computes_bind; [by apply pending_supported_amount_computes|].
  intros a' v'' _ Hc'' _. by apply computes_ret.
Qed.

Lemma bind_Ret_inv {A B} (m : M A) (k : A → M B) v b v' :
  (m ≫= k) v = Ret (b, v') → ∃ a v1, m v = Ret (a, v1) ∧ k a v1 = Ret (b, v').
Proof.
  unfold mbind, M_bind. destruct (m v) as [[a v1]|e]; [eauto|done].
Qed.

Lemma computes_Ret_inv {A} (m : M A) v o a v' :
  computes m v o → m v = Ret (a, v') →
  o = Some a ∧ coherent v' ∧ v' = with_amount_cache v (amount_cache v').
Proof. unfold computes. intros H Hrun. by rewrite Hrun in H. Qed.

Lemma for_list_computes {A B} (f : A → M B) (g : A → option B) l :
  (∀ a v, coherent v → computes (f a) v (g a)) →
  ∀ v, coherent v → computes (for_list f l) v (mapM g l).
Proof.
  intros Hf. induction l as [|a l IH]; intros v Hc; simpl.
  - by apply computes_ret.
  - eapply computes_bind; [by apply Hf|]. intros b v1 _ Hc1 _.
    eapply computes_bind; [by apply IH|]. intros bs v2 _ Hc2 _.
    by apply computes_ret.
Qed.

(** [amounts] without the cache. *)
Definition amounts_of (name : string) (controlling : option ClaimTakeoverValue)
    (activated : list (string * list (PendingActivationKey * Z)))
    : option (list (string * Z)) :=
  amounts ←
    mapM (λ claim_hash,
            amount ← pending_effective_amount name claim_hash None;
            Some (claim_hash, amount))
      (filter (λ claim_hash, claim_hash ∉ abandoned_claims fr) activated.*1);
  match controlling with
  | Some controlling =>
      if decide (ct_claim_hash controlling ∉ abandoned_claims fr) then
        amount ← pending_effective_amount name (ct_claim_hash controlling) None;
        Some (dict_set amounts (ct_claim_hash controlling) amount)
      else Some amounts
  | None => Some amounts
  end.

(** [amounts_with_future_activations] without the cache. *)
Definition future_amounts_of (name : string) (amounts : list (string * Z))
    : option (list (string * Z)) :=
  future ←
    mapM (λ claim_hash,
            amount ← pending_effective_amount name claim_hash
                       (Some (self_height fr + 1 + maxTakeoverDelay));
            Some (claim_hash, amount))
      (default [] (future_activations fr !! name)).*1;
  Some (MemPool.dict_update amounts future).

Lemma takeover_amounts_computes name controlling activated v :
  coherent v →
  computes (takeover_amounts name controlling activated) v
    (amounts_of name controlling activated).
Proof.
  intros Hc. unfold takeover_amounts, amounts_of.
  eapply computes_bind.
  - apply for_list_computes; [|done]. intros h v0 Hc0.
    eapply computes_bind; [by apply pending_effective_amount_computes|].
    intros a v1 _ Hc1 _. by apply computes_ret.
  - intros amounts v1 _ Hc1 _. destruct controlling as [c|]; [|by apply computes_ret].
    case_decide; [|by apply computes_ret].
    eapply computes_bind; [by apply pending_effective_amount_computes|].
    intros a v2 _ Hc2 _. by apply computes_ret.
Qed.

Lemma future_amounts_computes name amounts v :
  coherent v →
  computes (future_amounts name amounts) v (future_amounts_of name amounts).
Proof.
  intros Hc. unfold future_amounts, future_amounts_of.
  eapply computes_bind.
  - apply for_list_computes; [|done]. intros h v0 Hc0.
    eapply computes_bind; [by apply pending_effective_amount_computes|].
    intros a v1 _ Hc1 _. by apply computes_ret.
  - intros future v1 _ Hc1 _. by apply computes_ret.
Qed.

(** The condition under which the takeover row of a name is rewritten:
    nothing controls the name, or the winner is not the controlling claim
    and either the controlling claim was abandoned or updated in this
    block or the winner's amount exceeds the controlling claim's. *)
Definition takeover_due (name : string) (controlling : option ClaimTakeoverValue)
    (amounts : list (string * Z)) (winner : string) (winning_amount : Z) : Prop :=
  match controlling with
  | None => True
  | Some controlling =>
      winner ≠ ct_claim_hash controlling ∧
      (name ∈ names_with_abandoned_or_updated_controlling_claims fr ∨
       ∃ controlling_amount,
         dict_get amounts (ct_claim_hash controlling) = Some controlling_amount ∧
         controlling_amount < winning_amount)
  end.

Lemma dict_argmax_get amounts k a :
  dict_argmax amounts = Some (k, a) → NoDup amounts.*1 → dict_get amounts k = Some a.
Proof.
  revert k a. induction amounts as [|[k0 a0] rest IH]; intros k a; simpl; [done|].
  intros Hmax [Hnotin Hnd]%NoDup_cons.
  destruct (dict_argmax rest) as [[k' a']|] eqn:Hrest.
  - destruct (a' >? a0).
    + injection Hmax as <- <-. rewrite decide_False; [by apply IH|].
      intros ->. apply Hnotin. specialize (IH _ _ eq_refl Hnd).
      apply dict_get_Some_elem in IH. by apply (list_elem_of_fmap_2 fst) in IH.
    + injection Hmax as <- <-. by rewrite decide_True.
  - injection Hmax as <- <-. by rewrite decide_True.
Qed.

(** When the test returns, it returns whether the takeover is due. *)
Lemma takeover_test_run name controlling amounts winner winning_amount v b v' :
  dict_get amounts winner = Some winning_amount →
  takeover_test name controlling amounts winner v = Ret (b, v') →
  v' = v ∧ (b = true ↔ takeover_due name controlling amounts winner winning_amount).
Proof.
  intros Hw. unfold takeover_test, takeover_due.
  destruct controlling as [c|]; [|by intros [= <- <-]].
  destruct (bool_decide (winner ≠ ct_claim_hash c)) eqn:Hne; simpl.
  - apply bool_decide_eq_true in Hne.
    destruct (bool_decide (name ∈ _)) eqn:Hin; simpl.
    + apply bool_decide_eq_true in Hin. intros [= <- <-]. split; [done|]. tauto.
    + apply bool_decide_eq_false in Hin. rewrite Hw.
      unfold mbind, M_bind, of_opt; simpl.
      destruct (dict_get amounts (ct_claim_hash c)) as [ca|]; simpl; [|done].
      intros [= <- <-]. split; [done|]. split.
      * intros Hgt. split; [done|]. right. exists ca. split; [done|]. lia.
      * intros [_ [?|(ca' & [= <-] & Hlt)]]; [done|]. lia.
  - apply bool_decide_eq_false in Hne. intros [= <- <-]. split; [done|].
    split; [done|]. intros [? _]. done.
Qed.

(** *** The activation delay *)

(** The controlling claim of a name as of the previous block, as
    [get_controlling] returns it. *)
Definition controlling_claim (v : vars) (name : string) : option ClaimTakeoverValue :=
  match controlling_claims v !! name with
  | Some controlling => controlling
  | None => db_get_controlling_claim name
  end.

(** The delay as the specification gives it: 0 when nothing controls the
    name, when the staged claim is the controlling one, or when the
    controlling claim is abandoned or updated in this block; else the
    delay of the name for a new claim; else, for an update, 0 unless its
    pending effective amount exceeds that of the controlling claim. *)
Definition claimed_delay (v : vars) (height : Z) (name claim_hash : string)
    (is_new_claim : bool) : option Z :=
  match controlling_claim v name with
  | None => Some 0
  | Some controlling =>
      if decide (claim_hash = ct_claim_hash controlling
                 ∨ name ∈ names_with_abandoned_or_updated_controlling_claims fr)
      then Some 0
      else if is_new_claim
      then Some (get_delay_for_name (height - ct_height controlling))
      else
        controlling_amount ←
          pending_effective_amount name (ct_claim_hash controlling) None;
        staged_amount ← pending_effective_amount name claim_hash None;
        Some (if decide (controlling_amount < staged_amount)
              then get_delay_for_name (height - ct_height controlling)
              else 0)
  end.

(** Two states with the same activations scheduled and the same
    operations staged. *)
Definition same_schedule (v v' : vars) : Prop :=
  activated_at_height v' = activated_at_height v ∧
  activate_in_future v' = activate_in_future v ∧
  possible_future_support_txos_by_claim_hash v'
  = possible_future_support_txos_by_claim_hash v ∧
  taken_over_names v' = taken_over_names v ∧
  touched_claim_hashes v' = touched_claim_hashes v ∧
  op_stack v' = op_stack v.

Lemma get_controlling_run name v :
  ∃ v', get_controlling name v = Ret (controlling_claim v name, v') ∧
        amount_cache v' = amount_cache v ∧ same_schedule v v' ∧
        controlling_claims v' !! name = Some (controlling_claim v name) ∧
        ∀ name', controlling_claim v' name' = controlling_claim v name'.
Proof.
  unfold get_controlling, controlling_claim, mbind, M_bind, get. simpl.
  destruct (controlling_claims v !! name) as [c|] eqn:Hc; simpl.
  - exists v. rewrite Hc. done.
  - eexists. split; [reflexivity|]. simpl. split; [done|]. split; [done|].
    rewrite lookup_insert_eq. split; [done|]. intros name'.
    destruct (decide (name = name')) as [<-|Hne].
    + by rewrite lookup_insert_eq, Hc.
    + by rewrite lookup_insert_ne.
Qed.

Lemma computes_same_schedule {A} (m : M A) v o a v' :
  computes m v o → m v = Ret (a, v') →
  o = Some a ∧ coherent v' ∧ same_schedule v v' ∧
  controlling_claims v' = controlling_claims v.
Proof.
  unfold computes. intros H Hrun. rewrite Hrun in H.
  destruct H as (-> & Hc & ->). done.
Qed.

Lemma activation_delay_spec height name claim_hash is_new_claim v :
  coherent v →
  match activation_delay height name claim_hash is_new_claim v with
  | Ret (delay, v') =>
      claimed_delay v height name claim_hash is_new_claim = Some delay ∧
      coherent v' ∧ same_schedule v v'
  | Raise e => claimed_delay v height name claim_hash is_new_claim = None
  end.
Proof.
  intros Hc. unfold activation_delay, claimed_delay.
  destruct (get_controlling_run name v) as (v0 & Hget & Hcache & Hsame & _).
  unfold mbind at 1, M_bind. rewrite Hget.
  assert (coherent v0) as Hc0.
  { intros h t ht a. rewrite Hcache. apply Hc. }
  destruct (controlling_claim v name) as [c|]; [|done].
  destruct (decide (claim_hash = ct_claim_hash c
                    ∨ name ∈ names_with_abandoned_or_updated_controlling_claims fr))
    as [Hor|Hnor].
  { replace (bool_decide (claim_hash = ct_claim_hash c)
             || bool_decide (name ∈ names_with_abandoned_or_updated_controlling_claims fr))
      with true; [done|].
    symmetry. apply orb_true_iff.
    destruct Hor; [left|right]; by apply bool_decide_eq_true. }
  replace (bool_decide (claim_hash = ct_claim_hash c)
           || bool_decide (name ∈ names_with_abandoned_or_updated_controlling_claims fr))
    with false.
  2:{ symmetry. apply orb_false_iff.
      split; apply bool_decide_eq_false; tauto. }
  destruct is_new_claim; [done|].
  pose proof (pending_effective_amount_computes name (ct_claim_hash c) None v0 Hc0)
    as H1.
  unfold mbind at 1, M_bind.
  destruct (_get_pending_effective_amount name (ct_claim_hash c) None v0)
    as [[ce v1]|e] eqn:Hrun1.
  2:{ unfold computes in H1. rewrite Hrun1 in H1. by destruct H1 as [-> _]. }
  destruct (computes_same_schedule _ _ _ _ _ H1 Hrun1) as (-> & Hc1 & Hsame1 & _).
  pose proof (pending_effective_amount_computes name claim_hash None v1 Hc1) as H2.
  unfold mbind at 1, M_bind.
  destruct (_get_pending_effective_amount name claim_hash None v1)
    as [[se v2]|e] eqn:Hrun2.
  2:{ unfold computes in H2. rewrite Hrun2 in H2. by destruct H2 as [-> _]. }
  destruct (computes_same_schedule _ _ _ _ _ H2 Hrun2) as (-> & Hc2 & Hsame2 & _).
  simpl. split; [|split; [done|]].
  - f_equal. destruct (Z.gtb_spec se ce); simpl; case_decide; done || lia.
  - unfold same_schedule in *. intuition congruence.
Qed.

(** C3.  [get_delayed_activate_ops] for a claim or support staged at
    [height] computes the delay of the specification: 0 when nothing
    controls the name, when the staged claim is the controlling claim, or
    when the controlling claim is abandoned or updated in this block; for
    an item flagged as a new claim [get_delay_for_name (height -
    controlling.height)]; for an update 0 unless its pending effective
    amount exceeds that of the controlling claim, and then the same delay.
    The activation rows are staged at [height + delay]; with delay 0 the
    item is appended to [activated_at_height], else it is appended to
    [activate_in_future] at [height + delay].  The call raises only when
    an amount cannot be read. *)
Theorem delayed_activation_spec height name claim_hash is_new_claim
    tx_num nout amount is_support v :
  coherent v →
  match get_delayed_activate_ops height name claim_hash is_new_claim tx_num nout
          amount is_support v with
  | Ret (_, v') =>
      ∃ delay,
        claimed_delay v height name claim_hash is_new_claim = Some delay ∧
        op_stack v' = op_stack v
          ++ get_activate_ops (txo_type_of is_support) claim_hash tx_num nout
               (height + delay) name (Some amount) ∧
        if decide (delay = 0) then
          activated_at_height v' !! (claim_hash, name)
          = Some (default [] (activated_at_height v !! (claim_hash, name))
                  ++ [ {| k_height := height;
                          k_txo_type := txo_type_of is_support;
                          k_tx_num := tx_num; k_position := nout |} ]) ∧
          activate_in_future v' = activate_in_future v
        else
          activate_in_future v' !! (name, claim_hash)
          = Some (default [] (activate_in_future v !! (name, claim_hash))
                  ++ [ ({| k_height := height + delay;
                           k_txo_type := txo_type_of is_support;
                           k_tx_num := tx_num; k_position := nout |}, amount) ]) ∧
          activated_at_height v' = activated_at_height v
  | Raise e => claimed_delay v height name claim_hash is_new_claim = None
  end.
Proof.
  intros Hc. unfold get_delayed_activate_ops.
  pose proof (activation_delay_spec height name claim_hash is_new_claim v Hc) as Hd.
  unfold mbind at 1, M_bind.
  destruct (activation_delay height name claim_hash is_new_claim v)
    as [[delay v1]|e]; [|done].
  destruct Hd as (Hdelay & _ & Hat & Hfut & Hpos & _ & _ & Hops).
  destruct (decide (delay = 0)) as [->|Hnz].
  - unfold mbind, M_bind, modify, stage. simpl. exists 0. split; [done|].
    rewrite decide_True by done. rewrite Hops, Hat, Hfut.
    split; [done|]. by rewrite lookup_insert_eq.
  - unfold mbind, M_bind, modify, stage. simpl.
    destruct is_support; simpl; exists delay; (split; [done|]);
      rewrite decide_False by done; rewrite Hops, Hat, Hfut;
      (split; [done|]); by rewrite lookup_insert_eq.
Qed.

(** *** What one name of the takeover loop stages *)

Lemma mapM_keys {A} (g : string → option A) l r :
  mapM (λ k, a ← g k; Some (k, a)) l = Some r → r.*1 = l.
Proof.
  revert r. induction l as [|k l IH]; intros r; simpl.
  - by intros [= <-].
  - destruct (g k) as [a|]; simpl; [|done].
    destruct (mapM _ l) as [r'|]; simpl; [|done].
    intros [= <-]. simpl. f_equal. by apply IH.
Qed.

Lemma amounts_of_NoDup name controlling activated amounts :
  NoDup activated.*1 → amounts_of name controlling activated = Some amounts →
  NoDup amounts.*1.
Proof.
  intros Hnd. unfold amounts_of.
  destruct (mapM _ _) as [r|] eqn:Hr; simpl; [|done].
  apply mapM_keys in Hr.
  assert (NoDup r.*1) as Hndr by (rewrite Hr; by apply NoDup_filter).
  destruct controlling as [c|]; [|by intros [= <-]].
  case_decide; [|by intros [= <-]].
  destruct (pending_effective_amount _ _ _); simpl; [|done].
  intros [= <-]. by apply MemPool.dict_set_NoDup.
Qed.

Lemma cache_only_same v c : same_schedule v (with_amount_cache v c).
Proof. done. Qed.

Lemma same_schedule_trans v1 v2 v3 :
  same_schedule v1 v2 → same_schedule v2 v3 → same_schedule v1 v3.
Proof. unfold same_schedule. intuition congruence. Qed.

Lemma early_claim_txo_same v v' name winner :
  same_schedule v v' → early_claim_txo v' name winner = early_claim_txo v name winner.
Proof. intros (Hat & Hfut & _). unfold early_claim_txo. by rewrite Hat, Hfut. Qed.

Lemma early_support_ops_same v v' height name winner :
  same_schedule v v' →
  early_support_ops v' height name winner = early_support_ops v height name winner.
Proof. intros (_ & Hfut & Hpos & _). unfold early_support_ops. by rewrite Hfut, Hpos. Qed.

(** The operations a plain takeover stages before it rewrites the
    takeover row: the winner's activation moved to this height. *)
Definition reactivation_ops (height : Z) (name winner : string)
    : option (list RevertableOp) :=
  match need_reactivate_if_takes_over fr !! (name, winner) with
  | Some previous_pending_activate =>
      '(tx_num, position, amount) ←
        match claim_hash_to_txo fr !! winner with
        | Some (tx_num, position) =>
            staged ← txo_to_claim fr !! (tx_num, position);
            Some (tx_num, position, Some (Claims.amount staged))
        | None =>
            Some (k_tx_num previous_pending_activate,
                  k_position previous_pending_activate,
                  db_get_claim_txo_amount winner)
        end;
      if decide (k_height previous_pending_activate > height) then
        Some ((if decide (tx_num < tx_count fr) then
                 get_remove_activate_ops ACTIVATED_CLAIM_TXO_TYPE winner tx_num
                   position (k_height previous_pending_activate) name amount
               else [])
              ++ get_activate_ops ACTIVATED_CLAIM_TXO_TYPE winner tx_num position
                   height name amount)
      else Some []
  | None => Some []
  end.

Lemma plain_takeover_run height name controlling winner v v' :
  plain_takeover height name controlling winner v = Ret (tt, v') →
  ∃ ops, reactivation_ops height name winner = Some ops ∧
    v' = with_ops (with_takeover (with_ops v ops) name
                     (touched_by_takeover controlling winner))
           (takeover_ops height name controlling winner).
Proof.
  unfold plain_takeover, reactivation_ops.
  destruct (need_reactivate_if_takes_over fr !! (name, winner)) as [prev|].
  2:{ intros [= <-]. exists []. split; [done|]. destruct v. simpl.
      unfold with_takeover, with_ops. simpl. by rewrite app_nil_r. }
  destruct (claim_hash_to_txo fr !! winner) as [[tx_num position]|].
  - unfold mbind at 1 2 3, M_bind, of_opt.
    destruct (txo_to_claim fr !! (tx_num, position)) as [staged|]; simpl; [|done].
    destruct (decide (k_height prev > height)).
    + destruct (decide (tx_num < tx_count fr)); intros [= <-];
        eexists; (split; [reflexivity|]); destruct v; unfold with_takeover, with_ops;
        simpl; by rewrite <- ?app_assoc.
    + intros [= <-]. exists []. split; [done|]. destruct v.
      unfold with_takeover, with_ops. simpl. by rewrite app_nil_r.
  - unfold mbind at 1 2 3, M_bind. simpl.
    destruct (decide (k_height prev > height)).
    + destruct (decide (k_tx_num prev < tx_count fr)); intros [= <-];
        eexists; (split; [reflexivity|]); destruct v; unfold with_takeover, with_ops;
        simpl; by rewrite <- ?app_assoc.
    + intros [= <-]. exists []. split; [done|]. destruct v.
      unfold with_takeover, with_ops. simpl. by rewrite app_nil_r.
Qed.

Lemma early_takeover_run height name controlling winner v v' :
  early_takeover height name controlling winner v = Ret (tt, v') →
  ∃ tx_num position amount activation,
    early_claim_txo v name winner = Ret (tx_num, position, amount, activation) ∧
    v' = with_ops (with_takeover v name (touched_by_takeover controlling winner))
           (get_remove_activate_ops ACTIVATED_CLAIM_TXO_TYPE winner tx_num position
              activation name (Some amount)
            ++ get_activate_ops ACTIVATED_CLAIM_TXO_TYPE winner tx_num position
                 height name (Some amount)
            ++ early_support_ops v height name winner
            ++ takeover_ops height name controlling winner).
Proof.
  unfold early_takeover. unfold mbind at 1 2, M_bind, get, lift. simpl.
  destruct (early_claim_txo v name winner) as [[[[tx_num position] amount] activation]|];
    [|done].
  intros [= <-]. exists tx_num, position, amount, activation. split; [done|].
  destruct v. unfold with_takeover, with_ops. simpl. by rewrite <- !app_assoc.
Qed.

(** What [process_takeover] has done when it returns. *)
Lemma process_takeover_run height name activated v v' :
  coherent v → NoDup activated.*1 →
  process_takeover height name activated v = Ret (tt, v') →
  ∃ controlling amounts w wa v0,
    controlling_claims v !! name = Some controlling ∧
    amounts_of name controlling activated = Some amounts ∧
    dict_argmax amounts = Some (w, wa) ∧
    same_schedule v v0 ∧
    ((¬ takeover_due name controlling amounts w wa ∧ v' = v0) ∨
     (takeover_due name controlling amounts w wa ∧
      ∃ fam wf fa,
        future_amounts_of name amounts = Some fam ∧
        dict_argmax fam = Some (wf, fa) ∧
        if decide (w ≠ wf ∧ wa < fa) then
          early_takeover height name controlling wf v0 = Ret (tt, v')
        else plain_takeover height name controlling w v0 = Ret (tt, v'))).
Proof.
  intros Hc Hnd Hrun. unfold process_takeover in Hrun.
  apply bind_Ret_inv in Hrun as (cached & v1 & [= <- <-] & Hrun).
  apply bind_Ret_inv in Hrun as (controlling & v1 & Hcc & Hrun).
  unfold of_opt in Hcc.
  destruct (controlling_claims v !! name) as [c|] eqn:Hcached; [|done].
  injection Hcc as <- <-.
  apply bind_Ret_inv in Hrun as (amounts & v1 & Ham & Hrun).
  destruct (computes_Ret_inv _ _ _ _ _
              (takeover_amounts_computes name c activated v Hc) Ham)
    as (Hamounts & Hc1 & Hv1).
  apply bind_Ret_inv in Hrun as ([w1 wa1] & v2 & Hmax & Hrun).
  unfold of_opt in Hmax.
  destruct (dict_argmax amounts) as [[w wa]|] eqn:Hargmax; [|done].
  injection Hmax as <- <- <-.
  apply bind_Ret_inv in Hrun as (takeover & v2 & Htest & Hrun).
  pose proof (amounts_of_NoDup _ _ _ _ Hnd Hamounts) as Hnda.
  apply (takeover_test_run _ _ _ _ wa) in Htest as [-> Hdue];
    [|by apply dict_argmax_get].
  exists c, amounts, w, wa.
  destruct takeover.
  - apply bind_Ret_inv in Hrun as (fam & v2 & Hfam & Hrun).
    destruct (computes_Ret_inv _ _ _ _ _
                (future_amounts_computes name amounts v1 Hc1) Hfam)
      as (Hfuture & Hc2 & Hv2).
    apply bind_Ret_inv in Hrun as ([wf1 fa1] & v3 & Hmaxf & Hrun).
    unfold of_opt in Hmaxf.
    destruct (dict_argmax fam) as [[wf fa]|] eqn:Hargmaxf; [|done].
    injection Hmaxf as <- <- <-.
    exists v2. split; [done|]. split; [done|]. split; [done|]. split.
    { rewrite Hv2, Hv1. done. }
    right. split; [by apply Hdue|]. exists fam, wf, fa.
    split; [done|]. split; [done|].
    destruct (decide (w ≠ wf ∧ wa < fa)) as [[Hne Hlt]|Hnot].
    + rewrite bool_decide_eq_true_2 in Hrun by done.
      replace (fa >? wa) with true in Hrun by (symmetry; apply Z.gtb_lt; lia).
      done.
    + replace (bool_decide (w ≠ wf) && (fa >? wa)) with false in Hrun; [done|].
      symmetry. apply andb_false_iff.
      destruct (decide (w = wf)) as [->|Hne].
      * left. apply bool_decide_eq_false. tauto.
      * right. destruct (Z.gtb_spec fa wa); [|done]. exfalso. apply Hnot.
        split; [done|lia].
  - injection Hrun as <-. exists v1. split; [done|]. split; [done|].
    split; [done|]. split; [by rewrite Hv1|]. left. split; [|done].
    intros Hd. apply Hdue in Hd. done.
Qed.

(** The operations on the takeover rows among those staged. *)
Definition takeover_rows (ops : list RevertableOp) : list RevertableOp :=
  filter (λ op, (op_key op).1 = c_claim_takeover) ops.

Lemma takeover_rows_app ops1 ops2 :
  takeover_rows (ops1 ++ ops2) = takeover_rows ops1 ++ takeover_rows ops2.
Proof. apply filter_app. Qed.

Lemma takeover_rows_none ops :
  Forall (λ op, (op_key op).1 ≠ c_claim_takeover) ops → takeover_rows ops = [].
Proof.
  induction 1 as [|op ops Hop _ IH]; [done|].
  unfold takeover_rows. rewrite filter_cons, decide_False by done. exact IH.
Qed.

Lemma takeover_rows_takeover_ops height name controlling holder :
  takeover_rows (takeover_ops height name controlling holder)
  = takeover_ops height name controlling holder.
Proof. by destruct controlling. Qed.

Lemma activate_ops_rows t claim_hash tx_num position activation name amount :
  takeover_rows (get_activate_ops t claim_hash tx_num position activation name amount) = [] ∧
  takeover_rows (get_remove_activate_ops t claim_hash tx_num position activation name amount) = [].
Proof. done. Qed.

Lemma early_support_ops_rows v height name winner :
  takeover_rows (early_support_ops v height name winner) = [].
Proof.
  unfold early_support_ops.
  induction (default [] (activate_in_future v !! (name, winner))) as [|[k a] l IH];
    [done|].
  cbn [mbind list_bind]. rewrite takeover_rows_app, IH, app_nil_r.
  by case_bool_decide.
Qed.

Lemma reactivation_ops_rows height name winner ops :
  reactivation_ops height name winner = Some ops → takeover_rows ops = [].
Proof.
  unfold reactivation_ops.
  destruct (need_reactivate_if_takes_over fr !! (name, winner)) as [prev|];
    [|by intros [= <-]].
  destruct (_ : option (Z * Z * option Z)) as [[[tx_num position] amount]|];
    simpl; [|done].
  case_decide; [|by intros [= <-]]. intros [= <-].
  by case_decide.
Qed.

(** C2, as amended.  For a name of the activation set with its controlling
    claim and the winner [w] among the activated claims that are not
    abandoned and the controlling claim: the takeover row of the name is
    deleted (when there is a controlling claim) and written anew at this
    height exactly when nothing controls the name, or [w] is not the
    controlling claim and the controlling claim was abandoned or updated in
    this block, or [w] is not the controlling claim and has the larger
    amount; otherwise nothing is staged.  The new row names [w], unless a
    claim [wf] that activates later has a larger amount once the future
    activations are counted: then it names [wf]. *)
Theorem takeover_row_rewritten height name activated v v' :
  coherent v → NoDup activated.*1 →
  process_takeover height name activated v = Ret (tt, v') →
  ∃ controlling amounts w wa ops,
    controlling_claims v !! name = Some controlling ∧
    amounts_of name controlling activated = Some amounts ∧
    dict_argmax amounts = Some (w, wa) ∧
    op_stack v' = op_stack v ++ ops ∧
    ((takeover_due name controlling amounts w wa ∧
      ∃ fam wf fa,
        future_amounts_of name amounts = Some fam ∧
        dict_argmax fam = Some (wf, fa) ∧
        takeover_rows ops
        = takeover_ops height name controlling
            (if decide (w ≠ wf ∧ wa < fa) then wf else w)) ∨
     (¬ takeover_due name controlling amounts w wa ∧ ops = [])).
Proof.
  intros Hc Hnd Hrun.
  destruct (process_takeover_run height name activated v v' Hc Hnd Hrun)
    as (controlling & amounts & w & wa & v0 & Hcc & Ham & Hmax & Hsame & Hcases).
  destruct Hsame as (_ & _ & _ & _ & _ & Hops0).
  exists controlling, amounts, w, wa.
  destruct Hcases as [[Hnot ->]|(Hdue & fam & wf & fa & Hfam & Hmaxf & Hbranch)].
  - exists []. rewrite app_nil_r. repeat (split; [done|]). by right.
  - destruct (decide (w ≠ wf ∧ wa < fa)) as [Hearly|Hplain].
    + apply early_takeover_run in Hbranch
        as (tx_num & position & amount & activation & _ & ->).
      exists (get_remove_activate_ops ACTIVATED_CLAIM_TXO_TYPE wf tx_num position
                activation name (Some amount)
              ++ get_activate_ops ACTIVATED_CLAIM_TXO_TYPE wf tx_num position
                   height name (Some amount)
              ++ early_support_ops v0 height name wf
              ++ takeover_ops height name controlling wf).
      repeat (split; [done|]). split.
      { cbn [op_stack with_ops with_takeover]. by rewrite Hops0. }
      left. split; [done|]. exists fam, wf, fa. repeat (split; [done|]).
      rewrite !takeover_rows_app, early_support_ops_rows,
        takeover_rows_takeover_ops.
      by rewrite decide_True.
    + apply plain_takeover_run in Hbranch as (ops & Hre & ->).
      exists (ops ++ takeover_ops height name controlling w).
      repeat (split; [done|]). split.
      { cbn [op_stack with_ops with_takeover]. by rewrite Hops0, <- app_assoc. }
      left. split; [done|]. exists fam, wf, fa. repeat (split; [done|]).
      rewrite takeover_rows_app, (reactivation_ops_rows _ _ _ _ Hre),
        takeover_rows_takeover_ops.
      by rewrite decide_False.
Qed.

(** C4, as amended.  When a takeover of the name is due in this block,
    and with the future activations counted the winner [wf] is another
    claim than the winner [w] of this block's activations and has the
    larger amount, [wf] takes over now: the activation of its claim txo is
    deleted at the height it was scheduled for and staged again at this
    height, and so is every support of it that was delayed in this block;
    the takeover row of the name is rewritten to [wf] at this height. *)
Theorem early_takeover_spec height name activated v v'
    controlling amounts w wa fam wf fa :
  coherent v → NoDup activated.*1 →
  process_takeover height name activated v = Ret (tt, v') →
  controlling_claims v !! name = Some controlling →
  amounts_of name controlling activated = Some amounts →
  dict_argmax amounts = Some (w, wa) →
  takeover_due name controlling amounts w wa →
  future_amounts_of name amounts = Some fam →
  dict_argmax fam = Some (wf, fa) →
  w ≠ wf → wa < fa →
  ∃ tx_num position amount activation,
    early_claim_txo v name wf = Ret (tx_num, position, amount, activation) ∧
    op_stack v' = op_stack v
      ++ get_remove_activate_ops ACTIVATED_CLAIM_TXO_TYPE wf tx_num position
           activation name (Some amount)
      ++ get_activate_ops ACTIVATED_CLAIM_TXO_TYPE wf tx_num position
           height name (Some amount)
      ++ early_support_ops v height name wf
      ++ takeover_ops height name controlling wf ∧
    name ∈ taken_over_names v' ∧ wf ∈ touched_claim_hashes v'.
Proof.
  intros Hc Hnd Hrun Hcc Ham Hmax Hdue Hfam Hmaxf Hne Hlt.
  destruct (process_takeover_run height name activated v v' Hc Hnd Hrun)
    as (controlling' & amounts' & w' & wa' & v0 & Hcc' & Ham' & Hmax' & Hsame & Hcases).
  rewrite Hcc in Hcc'. injection Hcc' as <-.
  rewrite Ham in Ham'. injection Ham' as <-.
  rewrite Hmax in Hmax'. injection Hmax' as <- <-.
  destruct Hcases as [[Hnot _]|(_ & fam' & wf' & fa' & Hfam' & Hmaxf' & Hbranch)];
    [done|].
  rewrite Hfam in Hfam'. injection Hfam' as <-.
  rewrite Hmaxf in Hmaxf'. injection Hmaxf' as <- <-.
  rewrite decide_True in Hbranch by done.
  apply early_takeover_run in Hbranch
    as (tx_num & position & amount & activation & Htxo & ->).
  rewrite (early_claim_txo_same _ _ _ _ Hsame) in Htxo.
  rewrite (early_support_ops_same _ _ _ _ _ Hsame).
  destruct Hsame as (_ & _ & _ & _ & _ & Hops0).
  exists tx_num, position, amount, activation. split; [done|].
  cbn [op_stack with_ops with_takeover taken_over_names touched_claim_hashes].
  rewrite Hops0. split; [done|]. unfold touched_by_takeover. set_solver.
Qed.
End Db.

(** The name [x] is controlled since height 10 by the claim [A]; nothing
    is staged, abandoned or cached. *)
Definition empty_frame (h : Z) : frame :=
  {| self_height := h; tx_count := 0; txo_to_claim := ∅;
     claim_hash_to_txo := ∅; abandoned_claims := ∅;
     activated_claim_amount_by_name_and_hash := ∅;
     possible_future_claim_amount_by_name_and_hash := ∅;
     activated_support_amount_by_claim := ∅;
     possible_future_support_amounts_by_claim_hash := ∅;
     removed_active_support_amount_by_claim := ∅;
     names_with_abandoned_or_updated_controlling_claims := [];
     future_activations := ∅; need_reactivate_if_takes_over := ∅ |}.

Definition empty_vars : vars :=
  {| amount_cache := ∅; controlling_claims := ∅; activated_at_height := ∅;
     activate_in_future := ∅; possible_future_support_txos_by_claim_hash := ∅;
     taken_over_names := ∅; touched_claim_hashes := ∅; op_stack := [] |}.

Definition x_controlled_by_A (name : string) : option ClaimTakeoverValue :=
  if decide (name = "x") then Some {| ct_claim_hash := "A"; ct_height := 10 |}
  else None.

Definition code_of (t : txo_type) : Z :=
  match t with
  | ACTIVATED_CLAIM_TXO_TYPE => 1
  | ACTIVATED_SUPPORT_TXO_TYPE => 2
  end.

(** The takeover delay of the main network: a block for every 32 blocks
    the controlling claim has been in control, 4032 at most. *)
Definition delay_of_age (age : Z) : Z := Z.min (age / 32) 4032.

(** A database in which [A] controls [x] and no claim has a row. *)
Definition db_x : Db :=
  {| d_txo_type_code := code_of;
     d_get_controlling_claim := x_controlled_by_A;
     d_get_claim_txo := λ _, None;
     d_get_activation := λ _ _, -1;
     d_get_claim_txo_amount := λ _, None;
     d_get_active_amount_as_of_height := λ _ _, 0;
     d__get_active_amount := λ _ _ _, 0;
     d_get_delay_for_name := delay_of_age;
     d_maxTakeoverDelay := 4032 |}.

Lemma coherent_empty db fr : coherent db fr empty_vars.
Proof. intros h t ht a. simpl. by rewrite lookup_empty. Qed.

(** A new claim [B] for [x] staged at height 1000 by output 0 of
    transaction 7 is delayed by [(1000 - 10) // 32 = 30] blocks. *)
Lemma delayed_activation_spec_witness :
  claimed_delay db_x (empty_frame 999) empty_vars 1000 "x" "B" true = Some 30 ∧
  ∃ v', get_delayed_activate_ops db_x (empty_frame 999)
          1000 "x" "B" true 7 0 150 false empty_vars = Ret (tt, v') ∧
        activate_in_future v' !! ("x", "B")
        = Some [ ({| k_height := 1030; k_txo_type := ACTIVATED_CLAIM_TXO_TYPE;
                     k_tx_num := 7; k_position := 0 |}, 150) ].
Proof.
  pose proof (delayed_activation_spec db_x (empty_frame 999)
                1000 "x" "B" true 7 0 150 false empty_vars
                (coherent_empty _ _)) as H.
  split; [reflexivity|].
  destruct (get_delayed_activate_ops _ _ _ _ _ _ _ _ _ _ _) as [[[] v']|e];
    [|discriminate H].
  exists v'. split; [reflexivity|].
  destruct H as (delay & Hdelay & _ & Hsched).
  injection Hdelay as <-. exact (proj1 Hsched).
Defined.

(** *** Two blocks at height 1000

    [A] controls [x] since height 10 with an amount of 100.  The claim [C]
    of 300, at output 0 of transaction 9, is in the database with its
    activation scheduled for height 1020. *)

Definition claim_A : ClaimTakeoverValue := {| ct_claim_hash := "A"; ct_height := 10 |}.

Definition db_1000 : Db :=
  {| d_txo_type_code := code_of;
     d_get_controlling_claim := x_controlled_by_A;
     d_get_claim_txo := λ h,
       if decide (h = "C") then
         Some {| v_tx_num := 9; v_position := 0; v_root_tx_num := 9;
                 v_root_position := 0; v_amount := 300;
                 v_channel_signature_is_valid := false; v_name := "x";
                 v_normalized_name := "x" |}
       else None;
     d_get_activation := λ tx_num position,
       if decide ((tx_num, position) = (9, 0)) then 1020 else -1;
     d_get_claim_txo_amount := λ h, if decide (h = "C") then Some 300 else None;
     d_get_active_amount_as_of_height := λ h height,
       if decide (h = "A") then 100
       else if decide (h = "C") then (if decide (1020 ≤ height) then 300 else 0)
       else 0;
     d__get_active_amount := λ _ _ _, 0;
     d_get_delay_for_name := delay_of_age;
     d_maxTakeoverDelay := 4032 |}.

Definition key_of_C : PendingActivationKey :=
  {| k_height := 1020; k_txo_type := ACTIVATED_CLAIM_TXO_TYPE;
     k_tx_num := 9; k_position := 0 |}.

Definition vars_1000 : vars :=
  {| amount_cache := ∅; controlling_claims := {["x" := Some claim_A]};
     activated_at_height := ∅; activate_in_future := ∅;
     possible_future_support_txos_by_claim_hash := ∅;
     taken_over_names := ∅; touched_claim_hashes := ∅; op_stack := [] |}.

Lemma coherent_vars_1000 db fr : coherent db fr vars_1000.
Proof. intros h t ht a. simpl. by rewrite lookup_empty. Qed.

(** In the first block the claim [B] of 150, at output 0 of transaction 8,
    activates as scheduled. *)
Definition frame_B : frame :=
  {| self_height := 999; tx_count := 20; txo_to_claim := ∅;
     claim_hash_to_txo := ∅; abandoned_claims := ∅;
     activated_claim_amount_by_name_and_hash := {[("x", "B") := 150]};
     possible_future_claim_amount_by_name_and_hash := ∅;
     activated_support_amount_by_claim := ∅;
     possible_future_support_amounts_by_claim_hash := ∅;
     removed_active_support_amount_by_claim := ∅;
     names_with_abandoned_or_updated_controlling_claims := [];
     future_activations := {["x" := [("C", (300, ("C", "x"), key_of_C))]]};
     need_reactivate_if_takes_over := ∅ |}.

Definition activated_B : list (string * list (PendingActivationKey * Z)) :=
  [ ("B", [ ({| k_height := 1000; k_txo_type := ACTIVATED_CLAIM_TXO_TYPE;
                k_tx_num := 8; k_position := 0 |}, 150) ]) ].

Definition after_B : vars :=
  match process_takeover db_1000 frame_B 1000 "x" activated_B vars_1000 with
  | Ret (_, v') => v'
  | Raise _ => vars_1000
  end.

Lemma process_B :
  process_takeover db_1000 frame_B 1000 "x" activated_B vars_1000 = Ret (tt, after_B).
Proof. vm_compute. reflexivity. Qed.

(** [B] wins over [A] among this block's activations, and [C] over [B]
    when the future activations are counted: the takeover row names [C]. *)
Lemma staged_after_B :
  op_stack after_B
  = get_remove_activate_ops db_1000 ACTIVATED_CLAIM_TXO_TYPE "C" 9 0 1020 "x" (Some 300)
    ++ get_activate_ops db_1000 ACTIVATED_CLAIM_TXO_TYPE "C" 9 0 1000 "x" (Some 300)
    ++ [ stage_delete c_claim_takeover [AStr "x"] [ABytes "A"; AInt 10];
         stage_put c_claim_takeover [AStr "x"] [ABytes "C"; AInt 1000] ].
Proof. vm_compute. reflexivity. Qed.

Lemma due_B :
  amounts_of db_1000 frame_B "x" (Some claim_A) activated_B
  = Some [("B", 150); ("A", 100)] ∧
  dict_argmax [("B", 150); ("A", 100)] = Some ("B", 150) ∧
  takeover_due frame_B "x" (Some claim_A) [("B", 150); ("A", 100)] "B" 150 ∧
  future_amounts_of db_1000 frame_B "x" [("B", 150); ("A", 100)]
  = Some [("B", 150); ("A", 100); ("C", 300)] ∧
  dict_argmax [("B", 150); ("A", 100); ("C", 300)] = Some ("C", 300).
Proof.
  split; [by vm_compute|]. split; [done|]. split; [|split; [by vm_compute|done]].
  split; [done|]. right. exists 100. split; [done|lia].
Qed.

(** C2 as stated fails: the takeover is due and the winner among the
    activated claims and the controlling claim is [B], yet the row written
    at height 1000 names [C] and no row naming [B] is staged. *)
Lemma takeover_row_not_the_winner :
  process_takeover db_1000 frame_B 1000 "x" activated_B vars_1000 = Ret (tt, after_B) ∧
  amounts_of db_1000 frame_B "x" (Some claim_A) activated_B
  = Some [("B", 150); ("A", 100)] ∧
  dict_argmax [("B", 150); ("A", 100)] = Some ("B", 150) ∧
  takeover_due frame_B "x" (Some claim_A) [("B", 150); ("A", 100)] "B" 150 ∧
  takeover_rows (op_stack after_B)
  = [ stage_delete c_claim_takeover [AStr "x"] [ABytes "A"; AInt 10];
      stage_put c_claim_takeover [AStr "x"] [ABytes "C"; AInt 1000] ] ∧
  stage_put c_claim_takeover [AStr "x"] [ABytes "B"; AInt 1000] ∉ op_stack after_B.
Proof.
  destruct due_B as (Ham & Hmax & Hdue & _).
  split; [apply process_B|]. split; [done|]. split; [done|]. split; [done|].
  rewrite staged_after_B. split; [by vm_compute|].
  intros Hin. cbv [get_remove_activate_ops get_activate_ops app] in Hin.
  repeat (apply elem_of_cons in Hin as [Hin|Hin]; [discriminate Hin|]).
  by apply elem_of_nil in Hin.
Qed.

Lemma takeover_row_rewritten_witness :
  ∃ controlling amounts w wa ops,
    controlling_claims vars_1000 !! "x" = Some controlling ∧
    amounts_of db_1000 frame_B "x" controlling activated_B = Some amounts ∧
    dict_argmax amounts = Some (w, wa) ∧
    op_stack after_B = op_stack vars_1000 ++ ops ∧
    ((takeover_due frame_B "x" controlling amounts w wa ∧
      ∃ fam wf fa,
        future_amounts_of db_1000 frame_B "x" amounts = Some fam ∧
        dict_argmax fam = Some (wf, fa) ∧
        takeover_rows ops
        = takeover_ops 1000 "x" controlling
            (if decide (w ≠ wf ∧ wa < fa) then wf else w)) ∨
     (¬ takeover_due frame_B "x" controlling amounts w wa ∧ ops = [])).
Proof.
  apply (takeover_row_rewritten db_1000 frame_B 1000 "x" activated_B
           vars_1000 after_B).
  - apply coherent_vars_1000.
  - apply NoDup_singleton.
  - apply process_B.
Defined.

Lemma early_takeover_spec_witness :
  ∃ tx_num position amount activation,
    early_claim_txo db_1000 frame_B vars_1000 "x" "C"
    = Ret (tx_num, position, amount, activation) ∧
    op_stack after_B = op_stack vars_1000
      ++ get_remove_activate_ops db_1000 ACTIVATED_CLAIM_TXO_TYPE "C" tx_num position
           activation "x" (Some amount)
      ++ get_activate_ops db_1000 ACTIVATED_CLAIM_TXO_TYPE "C" tx_num position
           1000 "x" (Some amount)
      ++ early_support_ops db_1000 vars_1000 1000 "x" "C"
      ++ takeover_ops 1000 "x" (Some claim_A) "C" ∧
    "x" ∈ taken_over_names after_B ∧ "C" ∈ touched_claim_hashes after_B.
Proof.
  destruct due_B as (Ham & Hmax & Hdue & Hfam & Hmaxf).
  apply (early_takeover_spec db_1000 frame_B 1000 "x" activated_B vars_1000
           after_B (Some claim_A) [("B", 150); ("A", 100)] "B" 150
           [("B", 150); ("A", 100); ("C", 300)] "C" 300).
  - apply coherent_vars_1000.
  - apply NoDup_singleton.
  - apply process_B.
  - reflexivity.
  - exact Ham.
  - exact Hmax.
  - exact Hdue.
  - exact Hfam.
  - exact Hmaxf.
  - discriminate.
  - lia.
Defined.

(** In the second block a support of 50 for [A] activates instead, and
    nothing else for [x]. *)
Definition frame_A : frame :=
  {| self_height := 999; tx_count := 20; txo_to_claim := ∅;
     claim_hash_to_txo := ∅; abandoned_claims := ∅;
     activated_claim_amount_by_name_and_hash := ∅;
     possible_future_claim_amount_by_name_and_hash := ∅;
     activated_support_amount_by_claim := {["A" := [50]]};
     possible_future_support_amounts_by_claim_hash := ∅;
     removed_active_support_amount_by_claim := ∅;
     names_with_abandoned_or_updated_controlling_claims := [];
     future_activations := {["x" := [("C", (300, ("C", "x"), key_of_C))]]};
     need_reactivate_if_takes_over := ∅ |}.

Definition activated_A : list (string * list (PendingActivationKey * Z)) :=
  [ ("A", [ ({| k_height := 1000; k_txo_type := ACTIVATED_SUPPORT_TXO_TYPE;
                k_tx_num := 5; k_position := 1 |}, 50) ]) ].

(** C4 as stated fails: with the future activations counted the winner is
    [C] with 300, another claim than the winner [A] of this block's
    activations with 150, yet nothing is staged and [x] is not taken over:
    the future activations are only looked at when a takeover is due. *)
Lemma no_early_takeover_from_the_controlling_claim :
  amounts_of db_1000 frame_A "x" (Some claim_A) activated_A = Some [("A", 150)] ∧
  dict_argmax [("A", 150)] = Some ("A", 150) ∧
  future_amounts_of db_1000 frame_A "x" [("A", 150)]
  = Some [("A", 150); ("C", 300)] ∧
  dict_argmax [("A", 150); ("C", 300)] = Some ("C", 300) ∧
  ∃ v', process_takeover db_1000 frame_A 1000 "x" activated_A vars_1000
        = Ret (tt, v') ∧
        op_stack v' = [] ∧ taken_over_names v' = ∅.
Proof.
  split; [by vm_compute|]. split; [done|]. split; [by vm_compute|].
  split; [done|]. eexists. split; [vm_compute; reflexivity|]. done.
Qed.

End Takeover.

(** ** Advancing a block and backing it up *)

Module Reorg.


(** *** The operation stack

    The source of the operation stack and of the typed columns
    ([lbry/wallet/server/db/revertable.py], [prefix_db.py]) is not among
    the sources; the definitions of this part follow the specification. *)









(** *** The block processor *)



















































(** *** A block on a small chain *)









End Reorg.

(** ** The queue of the prefetcher *)

Module PrefetchQueue.
Import Prefetcher.

(** [get_prefetched_blocks]: the blocks returned and the prefetcher left. *)
Definition get_prefetched_blocks (p : t) : list string * t :=
  (blocks p,
   {| blocks := []; caught_up := caught_up p;
      fetched_height := fetched_height p; cache_size := 0;
      min_cache_size := min_cache_size p; ave_size := ave_size p |}).

(** [cache_size] is the size of the blocks in the queue. *)
Definition accounted (p : t) : Prop := cache_size p = sum_sizes (blocks p).

Lemma sum_sizes_app bs1 bs2 : sum_sizes (bs1 ++ bs2) = sum_sizes bs1 + sum_sizes bs2.
Proof. induction bs1 as [|b bs1 IH]; simpl; lia. Qed.

Lemma init_accounted : accounted init.
Proof. reflexivity. Qed.

Lemma reset_height_accounted p h : accounted (reset_height p h).
Proof. reflexivity. Qed.

Lemma get_prefetched_blocks_accounted p : accounted (get_prefetched_blocks p).2.
Proof. reflexivity. Qed.

Section Daemon.
Variable raw_blocks : Z → Z → list string.
Variable genesis_block : string → string.

Lemma loop_body_accounted p d rq p' :
  accounted p → loop_body raw_blocks genesis_block p d = Ret (Fetched rq p') →
  accounted p'.
Proof.
  unfold accounted, loop_body. intros Hacc.
  destruct (batch_count p d) as [n|]; [|done]. simpl.
  destruct (decide (n = 0)); [done|].
  destruct (fetched_height p) as [fh|]; [|done]. simpl.
  case_match; [done|]. intros [= <- <-]. simpl.
  rewrite sum_sizes_app. lia.
Qed.

Lemma loop_body_caught_up p d p' :
  loop_body raw_blocks genesis_block p d = Ret (CaughtUp p') →
  p' = set_caught_up p.
Proof.
  unfold loop_body.
  destruct (batch_count p d) as [n|]; [|done]. simpl.
  destruct (decide (n = 0)).
  - by intros [= <-].
  - destruct (fetched_height p) as [fh|]; [|done]. simpl. by case_match.
Qed.

(** X1.  A call of [_prefetch_blocks] that starts with [cache_size] equal
    to the size of the queued blocks ends with it so, whatever the daemon
    returns; [get_prefetched_blocks] then hands over blocks of that size
    and leaves an empty queue of size 0. *)
Theorem prefetch_keeps_cache_size fuel p d tr q b :
  accounted p →
  prefetch_loop raw_blocks genesis_block fuel p d = Ret (tr, q, b) →
  accounted q ∧
  sum_sizes (get_prefetched_blocks q).1 = cache_size q ∧
  blocks (get_prefetched_blocks q).2 = [] ∧
  cache_size (get_prefetched_blocks q).2 = 0.
Proof.
  intros Hacc Hrun.
  assert (accounted q) as Hq.
  { revert p tr q b Hacc Hrun.
    induction fuel as [|fuel IH]; intros p tr q b Hacc; simpl.
    - by intros [= <- <- <-].
    - case_decide; [|by intros [= <- <- <-]].
      destruct (loop_body raw_blocks genesis_block p d) as [[p'|rq p']|] eqn:Hbody;
        simpl; [| |done].
      + intros [= <- <- <-]. apply loop_body_caught_up in Hbody as ->. exact Hacc.
      + destruct (prefetch_loop raw_blocks genesis_block fuel p' d)
          as [[[tr' q'] b']|] eqn:Hloop; simpl; [|done].
        intros [= <- <- <-]. eapply IH; [|done]. by eapply loop_body_accounted. }
  split; [done|]. by rewrite Hq.
Qed.
End Daemon.

Section Batches.
Variable raw_blocks : Z → Z → list string.
Variable genesis_block : string → string.

(** What a batch that fetched leaves. *)
Lemma loop_body_fetched p d rq p' fh :
  fetched_height p = Some fh →
  loop_body raw_blocks genesis_block p d = Ret (Fetched rq p') →
  ∃ n, 0 < n ∧ n ≤ d - fh ∧
       fetched_height p' = Some (fh + n) ∧
       Z.of_nat (length (blocks p')) = Z.of_nat (length (blocks p)) + n ∧
       min_cache_size p' = min_cache_size p ∧ caught_up p' = caught_up p.
Proof.
  intros Hfh. unfold loop_body.
  destruct (batch_count p d) as [n|] eqn:Hn; [|done]. simpl.
  destruct (decide (n = 0)); [done|]. rewrite Hfh. simpl.
  case_match eqn:Hlen; [done|]. intros [= <- <-]. simpl.
  apply negb_false_iff, bool_decide_eq_true in Hlen.
  unfold batch_count, floordiv in Hn.
  destruct (decide (ave_size p = 0)); [done|]. simpl in Hn.
  rewrite Hfh in Hn. simpl in Hn. injection Hn as Hn.
  exists n. repeat split; try lia.
  rewrite length_app.
  assert (length (if decide (fh + 1 = 0)
                  then match raw_blocks (fh + 1) n with
                       | [] => raw_blocks (fh + 1) n
                       | b :: rest => genesis_block b :: rest
                       end
                  else raw_blocks (fh + 1) n)
          = length (raw_blocks (fh + 1) n)) as ->.
  { case_decide; [|done]. by destruct (raw_blocks (fh + 1) n). }
  lia.
Qed.

(** X2.  A call of [_prefetch_blocks] never fetches past the height of the
    daemon, and queues as many blocks as it advances [fetched_height]
    by. *)
Theorem prefetch_stays_below_daemon fuel p d tr q b fh :
  fetched_height p = Some fh →
  prefetch_loop raw_blocks genesis_block fuel p d = Ret (tr, q, b) →
  ∃ fh', fetched_height q = Some fh' ∧ fh ≤ fh' ≤ Z.max fh d ∧
         Z.of_nat (length (blocks q))
         = Z.of_nat (length (blocks p)) + (fh' - fh).
Proof.
  revert p tr q b fh. induction fuel as [|fuel IH]; intros p tr q b fh Hfh; simpl.
  - intros [= <- <- <-]. exists fh. split; [done|]. lia.
  - case_decide; [|intros [= <- <- <-]; exists fh; split; [done|lia]].
    destruct (loop_body raw_blocks genesis_block p d) as [[p'|rq p']|] eqn:Hbody;
      simpl; [| |done].
    + intros [= <- <- <-]. apply loop_body_caught_up in Hbody as ->.
      exists fh. split; [done|]. simpl. lia.
    + destruct (prefetch_loop raw_blocks genesis_block fuel p' d)
        as [[[tr' q'] b']|] eqn:Hloop; simpl; [|done].
      intros [= <- <- <-].
      destruct (loop_body_fetched _ _ _ _ _ Hfh Hbody)
        as (n & Hn & Hle & Hfh' & Hlen & _).
      destruct (IH _ _ _ _ _ Hfh' Hloop) as (fh' & Hq & Hbounds & Hlen').
      exists fh'. split; [done|]. lia.
Qed.

(** X3.  The loop of [_prefetch_blocks] ends within as many passes as the
    daemon is ahead, plus one: it returns [False] with [caught_up] set, or
    [True] with the cache full. *)
Theorem prefetch_loop_ends fuel p d tr q b fh :
  fetched_height p = Some fh →
  (Z.to_nat (d - fh) < fuel)%nat →
  prefetch_loop raw_blocks genesis_block fuel p d = Ret (tr, q, b) →
  (b = false ∧ caught_up q = true) ∨
  (b = true ∧ min_cache_size q ≤ cache_size q).
Proof.
  revert p tr q b fh. induction fuel as [|fuel IH]; intros p tr q b fh Hfh Hfuel;
    [lia|]. simpl.
  case_decide as Hroom; [|intros [= <- <- <-]; right; split; [done|lia]].
  destruct (loop_body raw_blocks genesis_block p d) as [[p'|rq p']|] eqn:Hbody;
    simpl; [| |done].
  - intros [= <- <- <-]. apply loop_body_caught_up in Hbody as ->. by left.
  - destruct (prefetch_loop raw_blocks genesis_block fuel p' d)
      as [[[tr' q'] b']|] eqn:Hloop; simpl; [|done].
    intros [= <- <- <-].
    destruct (loop_body_fetched _ _ _ _ _ Hfh Hbody)
      as (n & Hn & Hle & Hfh' & _).
    eapply (IH _ _ _ _ _ Hfh'); [lia|done].
Qed.
End Batches.

(** A prefetcher that has been reset and whose estimate of the block size
    is positive. *)
Definition ready (p : t) : Prop :=
  0 ≤ min_cache_size p ∧ 0 < ave_size p ∧ is_Some (fetched_height p).

Lemma sum_sizes_length bs :
  Forall (λ b, b ≠ EmptyString) bs → Z.of_nat (length bs) ≤ sum_sizes bs.
Proof.
  induction 1 as [|b bs Hb _ IH]; simpl; [done|].
  unfold block_len. destruct b; [done|]. simpl String.length. lia.
Qed.

Section NonEmptyBlocks.
Variable raw_blocks : Z → Z → list string.
Variable genesis_block : string → string.
Hypothesis raw_blocks_nonempty :
  ∀ first n, Forall (λ b, b ≠ EmptyString) (raw_blocks first n).
Hypothesis genesis_block_nonempty : ∀ b, genesis_block b ≠ EmptyString.

Lemma loop_body_ready p d :
  ready p →
  match loop_body raw_blocks genesis_block p d with
  | Ret (CaughtUp p') | Ret (Fetched _ p') => ready p'
  | Raise e => e = AssertionError
  end.
Proof.
  intros (Hm & Ha & [fh Hfh]). unfold loop_body, batch_count, floordiv.
  rewrite decide_False by lia. simpl. rewrite Hfh. simpl.
  set (n := Z.min 500 _). case_decide as Hn; [by repeat split; simpl; eauto|].
  destruct (bool_decide (n = Z.of_nat (length (raw_blocks (fh + 1) n))))
    eqn:Hlen; simpl; [|done].
  apply bool_decide_eq_true in Hlen.
  split; [done|]. split; [|by eexists]. simpl.
  set (bs := if decide (fh + 1 = 0) then _ else _).
  assert (Forall (λ b, b ≠ EmptyString) bs ∧ length bs = length (raw_blocks (fh + 1) n))
    as [Hbs Hlen'].
  { subst bs. pose proof (raw_blocks_nonempty (fh + 1) n) as Hraw.
    case_decide; [|done]. destruct Hraw as [|b rest Hb Hrest]; [done|].
    split; [|done]. by constructor. }
  apply sum_sizes_length in Hbs. rewrite Hlen', <- Hlen in Hbs.
  assert (0 < n) by (subst n; lia).
  case_decide.
  - apply Z.div_str_pos. lia.
  - apply Z.div_str_pos. nia.
Qed.

(** X4.  With a daemon that returns no empty block, a prefetcher that has
    been reset and has a positive size estimate keeps both through a call
    of [_prefetch_blocks]: the division by [ave_size] never fails, and the
    only exception the call can raise is the [AssertionError] of a batch
    with the wrong number of blocks. *)
Theorem prefetch_only_asserts fuel p d :
  ready p →
  match prefetch_loop raw_blocks genesis_block fuel p d with
  | Ret (_, q, _) => ready q
  | Raise e => e = AssertionError
  end.
Proof.
  revert p. induction fuel as [|fuel IH]; intros p Hready; simpl; [done|].
  case_decide; [|done].
  pose proof (loop_body_ready p d Hready) as Hbody.
  destruct (loop_body raw_blocks genesis_block p d) as [[p'|rq p']|e]; simpl;
    [done| |done].
  specialize (IH p' Hbody).
  by destruct (prefetch_loop raw_blocks genesis_block fuel p' d)
    as [[[tr' q'] b']|e'].
Qed.
End NonEmptyBlocks.

(** After ten or more empty blocks the size estimate is 0 and the next
    pass fails with [ZeroDivisionError]. *)
Example empty_blocks_divide_by_zero :
  ∃ rq p',
    loop_body (λ _ n, replicate (Z.to_nat n) EmptyString) id
      (reset_height init 0) 100 = Ret (Fetched rq p') ∧
    ave_size p' = 0 ∧
    loop_body (λ _ n, replicate (Z.to_nat n) EmptyString) id p' 100
    = Raise ZeroDivisionError.
Proof. eexists _, _. split; [vm_compute; reflexivity|]. by vm_compute. Qed.

End PrefetchQueue.
